(** * WAL restorer (pkg/management/barman/restorer/restorer.go)

    A shallow embedding of the restorer package: the spool lookup
    [RestoreFromSpool], the fetch invoker [Restore] and the parallel
    prefetch [RestoreList], together with the fragments of the Go
    run-time they rely on (string slices with shared backing arrays,
    [error] values, [os/exec] commands, goroutines and [sync.WaitGroup]). *)

From stdpp Require Import base list gmap strings pretty.

Local Open Scope nat_scope.

(** ** Go values *)

(** [error]: the values of Go's error interface that this package meets.
    [wrapError] is what [fmt.Errorf] builds for a format with a %w verb. *)
Inductive error : Type :=
| errorString (s : string)
| ExitError (code : Z)
| wrapError (msg : string) (err : error).

#[global] Instance error_eq_dec : EqDecision error.
Proof. solve_decision. Defined.

(** The [Error()] method. *)
Definition Error (e : error) : string :=
  match e with
  | errorString s => s
  | ExitError code => "exit status " +:+ pretty code
  | wrapError msg _ => msg
  end.

(** [errors.Unwrap]. *)
Definition Unwrap (e : error) : option error :=
  match e with
  | wrapError _ err => Some err
  | _ => None
  end.

(** [time.Time] as nanoseconds on the wall clock, [time.Duration] as int64. *)
Definition Time := Z.
Definition Duration := Z.

Definition minDuration : Duration := (- 2 ^ 63)%Z.
Definition maxDuration : Duration := (2 ^ 63 - 1)%Z.

(** [Time.Sub]: the difference, saturated to the range of [Duration]. *)
Definition time_Sub (t u : Time) : Duration :=
  let d := (t - u)%Z in
  if (d <? minDuration)%Z then minDuration
  else if (maxDuration <? d)%Z then maxDuration
  else d.

(** ** String slices over shared backing arrays *)

Abbreviation loc := positive (only parsing).

(** A []string value: a window [off, off+len) into a backing array that
    may extend up to [off+cap).  The nil slice has no array. *)
Record slice : Type := Slice {
  array : option loc;
  off : nat;
  len : nat;
  cap : nat
}.

Definition nil_slice : slice := Slice None 0 0 0.

(** The store of backing arrays. *)
Abbreviation arrays := (gmap loc (list string)) (only parsing).

Definition arr_of (h : arrays) (s : slice) : list string :=
  match array s with
  | Some l => default [] (h !! l)
  | None => []
  end.

(** The elements a slice denotes in a store. *)
Definition elems (h : arrays) (s : slice) : list string :=
  take (len s) (drop (off s) (arr_of h s)).

(** A slice the run-time could have produced: the window fits its array. *)
Definition slice_ok (h : arrays) (s : slice) : Prop :=
  len s ≤ cap s ∧ off s + cap s ≤ length (arr_of h s).

#[global] Instance slice_ok_dec h s : Decision (slice_ok h s).
Proof. unfold slice_ok. apply _. Defined.

(** [s[i]]; [None] is the run-time panic "index out of range". *)
Definition index (h : arrays) (s : slice) (i : nat) : option string :=
  if decide (i < len s) then arr_of h s !! (off s + i) else None.

(** Overwrite [arr] from position [o] on with [vs]. *)
Definition write_at (o : nat) (vs : list string) (arr : list string) : list string :=
  take o arr ++ vs ++ drop (o + length vs) arr.

Definition store_at (s : slice) (o : nat) (vs : list string) (h : arrays) : arrays :=
  match array s with
  | Some l => alter (write_at (off s + o) vs) l h
  | None => h
  end.

(** [make([]string, n, c)]; [None] is the panic "len larger than cap". *)
Definition make (n c : nat) (h : arrays) : option (slice * arrays) :=
  if decide (n ≤ c) then
    let l := fresh (dom h) in
    Some (Slice (Some l) 0 n c, <[l := replicate c ""]> h)
  else None.

(** [copy(dst, src)]: moves min(len dst, len src) elements and returns
    that number. *)
Definition copy (dst src : slice) (h : arrays) : nat * arrays :=
  let n := len dst `min` len src in
  (n, store_at dst 0 (take n (elems h src)) h).

(** Capacity of the array [append] allocates when it has to grow. *)
Definition growcap (old needed : nat) : nat := (2 * old) `max` needed.

(** [append(s, vs...)]: in place when the capacity allows it, otherwise
    into a new, larger array. *)
Definition append (s : slice) (vs : list string) (h : arrays) : slice * arrays :=
  let n := len s + length vs in
  if decide (n ≤ cap s) then
    (Slice (array s) (off s) n (cap s), store_at s (len s) vs h)
  else
    let c := growcap (cap s) n in
    let l := fresh (dom h) in
    (Slice (Some l) 0 n c,
     <[l := elems h s ++ vs ++ replicate (c - n) ""]> h).

(** ** os/exec *)

(** [exec.Cmd]: [Args] holds the command name followed by its arguments.
    The [Path] of the executable, which [exec.Command] looks up from the
    name, is the operating system's business and not kept here. *)
Record Cmd : Type := mkCmd {
  Args : list string;
  Env : list string
}.

(** [exec.Command(name, arg...)]: the arguments are copied out of [arg]. *)
Definition exec_Command (name : string) (arg : list string) : Cmd :=
  mkCmd (name :: arg) [].

Definition set_Env (c : Cmd) (env : list string) : Cmd :=
  mkCmd (Args c) env.

(** How a process ended: it ran and exited with a status, or it could not
    be started. *)
Inductive ProcessState : Type :=
| Exited (code : Z)
| StartFailed (cause : string).

(** The error [Cmd.Run] reports: nil exactly for exit status 0. *)
Definition run_error (st : ProcessState) : option error :=
  match st with
  | Exited code => if decide (code = 0%Z) then None else Some (ExitError code)
  | StartFailed cause => Some (errorString cause)
  end.

(** One executed subprocess, as the operating system saw it. *)
Record Proc : Type := mkProc {
  proc_cmd : Cmd;
  proc_state : ProcessState
}.

(** ** The package *)

(** Result is the structure filled by the restore process on completion. *)
Record Result : Type := mkResult {
  WalName : string;
  DestinationPath : string;
  Err : option error;
  StartTime : Time;
  EndTime : Time
}.

(** The zero value of [Result], as [make([]Result, n)] fills it in. *)
Definition zeroResult : Result := mkResult "" "" None 0%Z 0%Z.

(** ** Structured logging *)

(** The values this package passes to the logger. *)
Inductive Value : Type :=
| VString (s : string)
| VStrings (l : list string)
| VTime (t : Time)
| VDuration (d : Duration)
| VError (e : option error).

Inductive Level : Type := InfoLevel | WarningLevel.

#[global] Instance Level_eq_dec : EqDecision Level.
Proof. solve_decision. Defined.

(** One entry written through a logger: [Info(msg, keysAndValues...)] or
    [Warning(msg, keysAndValues...)]. *)
Record LogEntry : Type := mkLogEntry {
  level : Level;
  msg : string;
  keysAndValues : list (string * Value)
}.

(** ** What the package is given

    The collaborators whose code is outside this package: the operating
    system, the clock, the name of the fetch tool, the cluster type and
    the spool. *)
Class Outside : Type := {
  (** Everything outside the process: the file system, the object store,
      the wall clock, the sink of the streamed subprocess output. *)
  Ext : Type;
  (** The operating system running a command to completion. *)
  os_run : Cmd → Ext → ProcessState * Ext;
  (** [time.Now()]. *)
  time_Now : Ext → Time * Ext;
  (** [barmanCapabilities.BarmanCloudWalRestore], the name of the fetch tool. *)
  BarmanCloudWalRestore : string;
  (** [apiv1.Cluster]. *)
  Cluster : Type;
  (** [spool.WALSpool] with the two methods and the sentinel used here:
      [FileName] is a pure path computation, [MoveOut] works on the local
      file system only. *)
  WALSpool : Type;
  spool_FileName : WALSpool → string → string;
  spool_MoveOut : WALSpool → string → string → Ext → option error * Ext;
  spool_ErrorNonExistentFile : error
}.

Section Restorer.

Context `{Outside}.

(** WALRestorer is a structure containing every info needed to restore
    some WALs from the object storage. *)
Record WALRestorer : Type := mkWALRestorer {
  cluster : Cluster;
  spool : WALSpool;
  env : list string
}.

(** The state a call works on: the backing arrays of the string slices,
    the subprocesses executed so far (oldest first) and the outside. *)
Record World : Type := mkWorld {
  strs : arrays;
  procs : list Proc;
  ext : Ext
}.

(** Computations over the world that may panic ([None]). *)
Definition M (A : Type) : Type := World → option (A * World).

Definition ret {A} (a : A) : M A := λ w, Some (a, w).

Definition bind {A B} (m : M A) (k : A → M B) : M B :=
  λ w, match m w with
       | Some (a, w') => k a w'
       | None => None
       end.

Notation "'let*' x ':=' m 'in' k" := (bind m (λ x, k))
  (at level 10, x name, m at level 100, k at level 200).

Definition with_strs {A} (f : arrays → A * arrays) : M A :=
  λ w, let '(a, h) := f (strs w) in Some (a, mkWorld h (procs w) (ext w)).

Definition with_strs_opt {A} (f : arrays → option (A * arrays)) : M A :=
  λ w, match f (strs w) with
       | Some (a, h) => Some (a, mkWorld h (procs w) (ext w))
       | None => None
       end.

Definition with_ext {A} (f : Ext → A * Ext) : M A :=
  λ w, let '(a, e) := f (ext w) in Some (a, mkWorld (strs w) (procs w) e).

Definition read_strs {A} (f : arrays → A) : M A :=
  λ w, Some (f (strs w), w).

(** Modelled from the spec: [execlog.RunStreaming] is not among the
    sources.  It executes the command once, streams its output to the
    log under [cmdName] as it is produced, and reports failure for any
    outcome other than exit status 0.  The streamed lines go to the
    logging sink of the [execlog] package, which is part of [Ext]. *)
Definition execlog_RunStreaming (cmd : Cmd) (cmdName : string) : M (option error) :=
  λ w, let '(st, e) := os_run cmd (ext w) in
       Some (run_error st, mkWorld (strs w) (procs w ++ [mkProc cmd st]) e).

(** [fmt.Errorf("unexpected failure invoking %s: %w", name, err)]. *)
Definition Errorf_invoking (name : string) (err : error) : error :=
  wrapError ("unexpected failure invoking " +:+ name +:+ ": " +:+ Error err) err.

(** Restore restores a WAL file from the object store. *)
Definition Restore (restorer : WALRestorer)
    (walName destinationPath : string) (baseOptions : slice) : M (option error) :=
  let* options := with_strs_opt (make (len baseOptions) (len baseOptions + 2)) in
  let* _ := with_strs (copy options baseOptions) in
  let* options := with_strs (append options [walName; destinationPath]) in
  let* args := read_strs (λ h, elems h options) in
  let barmanCloudWalRestoreCmd := exec_Command BarmanCloudWalRestore args in
  let barmanCloudWalRestoreCmd := set_Env barmanCloudWalRestoreCmd (env restorer) in
  let* err := execlog_RunStreaming barmanCloudWalRestoreCmd BarmanCloudWalRestore in
  match err with
  | Some e => ret (Some (Errorf_invoking BarmanCloudWalRestore e))
  | None => ret None
  end.

(** The command line [Restore] builds for a segment. *)
Definition fetch_cmd (restorer : WALRestorer) (opts : list string)
    (walName destinationPath : string) : Cmd :=
  mkCmd (BarmanCloudWalRestore :: opts ++ [walName; destinationPath])
        (env restorer).

(** The error [Restore] returns for a process that ended in [st]. *)
Definition restore_err (st : ProcessState) : option error :=
  Errorf_invoking BarmanCloudWalRestore <$> run_error st.

(** RestoreFromSpool restores a certain file from the spool, returning a
    boolean flag indicating is the file was in the spool or not. *)
Definition RestoreFromSpool (restorer : WALRestorer)
    (walName destinationPath : string) : M (bool * option error) :=
  let* err := with_ext (spool_MoveOut (spool restorer) walName destinationPath) in
  match err with
  | Some e =>
      if decide (e = spool_ErrorNonExistentFile) then ret (false, None)
      else ret (false, Some e)
  | None => ret (true, None)
  end.

(** *** RestoreList

    RestoreList restores a list of WALs.  The first WAL of the list will
    go directly into the destination path, the others will be adopted by
    the spool.

    The call is a main thread and one goroutine per element of the list,
    interleaved statement by statement by a scheduler. *)

(** The statement a goroutine of the loop body runs next. *)
Inductive wpc : Type :=
| WName      (* result := &resultList[walIndex]; result.WalName = fetchList[walIndex] *)
| WDest      (* result.DestinationPath = destinationPath, or the spool's file name *)
| WStart     (* result.StartTime = time.Now() *)
| WRestore   (* result.Err = restorer.Restore(...) *)
| WEnd       (* result.EndTime = time.Now() *)
| WLog       (* elapsedWalTime := ...; contextLog.Info or contextLog.Warning *)
| WDone      (* waitGroup.Done() *)
| WExit.     (* the goroutine has ended *)

#[global] Instance wpc_eq_dec : EqDecision wpc.
Proof. solve_decision. Defined.

(** A goroutine: its argument and its position in the body.  [ran] and
    [said] keep what it has done to the outside so far (the subprocess
    its [Restore] executed, the entries it wrote); no step reads them. *)
Record Goroutine : Type := mkGoroutine {
  walIndex : nat;
  at_pc : wpc;
  ran : option Proc;
  said : list LogEntry
}.

(** The statement the calling thread runs next. *)
Inductive mpc : Type :=
| MMake            (* resultList = make([]Result, len(fetchList)) *)
| MAdd (idx : nat) (* loop test, then waitGroup.Add(1) *)
| MGo (idx : nat)  (* go func(walIndex int) {...}(idx) *)
| MWait            (* waitGroup.Wait(); return resultList *)
| MDone.           (* returned *)

#[global] Instance mpc_eq_dec : EqDecision mpc.
Proof. solve_decision. Defined.

Record State : Type := mkState {
  world : World;
  (* the named result: nil until [make] *)
  resultList : option (list Result);
  (* the counter of the sync.WaitGroup *)
  waitGroup : Z;
  main : mpc;
  (* the goroutines started so far, in the order of their [go] statements *)
  goroutines : list Goroutine;
  (* the entries written through contextLog, oldest first *)
  contextLog : list LogEntry
}.

Inductive outcome : Type :=
| Next (s : State)
| Blocked
| Panic.

Inductive tid : Type :=
| Main
| Go (k : nat).

Definition set_WalName (v : string) (r : Result) : Result :=
  mkResult v (DestinationPath r) (Err r) (StartTime r) (EndTime r).
Definition set_DestinationPath (v : string) (r : Result) : Result :=
  mkResult (WalName r) v (Err r) (StartTime r) (EndTime r).
Definition set_Err (v : option error) (r : Result) : Result :=
  mkResult (WalName r) (DestinationPath r) v (StartTime r) (EndTime r).
Definition set_StartTime (v : Time) (r : Result) : Result :=
  mkResult (WalName r) (DestinationPath r) (Err r) v (EndTime r).
Definition set_EndTime (v : Time) (r : Result) : Result :=
  mkResult (WalName r) (DestinationPath r) (Err r) (StartTime r) v.

(** [contextLog.Info("Restored WAL file", ...)]. *)
Definition info_entry (r : Result) (elapsedWalTime : Duration) : LogEntry :=
  mkLogEntry InfoLevel "Restored WAL file"
    [("walName", VString (WalName r));
     ("startTime", VTime (StartTime r));
     ("endTime", VTime (EndTime r));
     ("elapsedWalTime", VDuration elapsedWalTime)].

(** [contextLog.Warning("Failed restoring WAL: ...", ...)]. *)
Definition warning_entry (r : Result) (opts : list string)
    (elapsedWalTime : Duration) : LogEntry :=
  mkLogEntry WarningLevel "Failed restoring WAL: PostgreSQL will retry if needed"
    [("walName", VString (WalName r));
     ("options", VStrings opts);
     ("startTime", VTime (StartTime r));
     ("endTime", VTime (EndTime r));
     ("elapsedWalTime", VDuration elapsedWalTime);
     ("error", VError (Err r))].

(** What the end of the loop body writes to the log for one result. *)
Definition log_of (walIndex : nat) (r : Result) (opts : list string) : list LogEntry :=
  let elapsedWalTime := time_Sub (EndTime r) (StartTime r) in
  match Err r with
  | None => [info_entry r elapsedWalTime]
  | Some _ =>
      if decide (walIndex = 0) then [warning_entry r opts elapsedWalTime]
      else []
  end.

(** [WaitGroup.Add]: panics when the counter becomes negative. *)
Definition wg_Add (delta : Z) (counter : Z) : option Z :=
  if decide (counter + delta < 0)%Z then None else Some (counter + delta)%Z.

Section RestoreList.

Variable restorer : WALRestorer.
Variable fetchList : slice.
Variable destinationPath : string.
Variable options : slice.

(** The state after goroutine [k] has run one statement: it is now
    [g], the world is [w], the results are [rs], and [entries] went
    to the log. *)
Definition advance (s : State) (k : nat) (g : Goroutine)
    (w : World) (rs : list Result) (entries : list LogEntry) : State :=
  mkState w (Some rs) (waitGroup s) (main s)
          (<[k := g]> (goroutines s)) (contextLog s ++ entries).

(** Follow the pointer [result = &resultList[i]]; a nil slice or an
    index out of range panics. *)
Definition on_result (s : State) (i : nat)
    (f : list Result → Result → outcome) : outcome :=
  match resultList s with
  | Some rs =>
      match rs !! i with
      | Some result => f rs result
      | None => Panic
      end
  | None => Panic
  end.

Definition goroutine_step (k : nat) (g : Goroutine) (s : State) : outcome :=
  let i := walIndex g in
  let w := world s in
  let at_ pc := mkGoroutine i pc (ran g) (said g) in
  match at_pc g with
  | WName =>
      on_result s i (λ rs result,
        match index (strs w) fetchList i with
        | Some name =>
            Next (advance s k (at_ WDest) w (<[i := set_WalName name result]> rs) [])
        | None => Panic
        end)
  | WDest =>
      on_result s i (λ rs result,
        let dest :=
          if decide (i = 0) then
            (* The WAL that PostgreSQL requested will go directly
               to the destination path *)
            destinationPath
          else spool_FileName (spool restorer) (WalName result) in
        Next (advance s k (at_ WStart) w
                      (<[i := set_DestinationPath dest result]> rs) []))
  | WStart =>
      on_result s i (λ rs result,
        let '(t, e) := time_Now (ext w) in
        Next (advance s k (at_ WRestore) (mkWorld (strs w) (procs w) e)
                      (<[i := set_StartTime t result]> rs) []))
  | WRestore =>
      on_result s i (λ rs result,
        match index (strs w) fetchList i with
        | Some name =>
            match Restore restorer name (DestinationPath result) options w with
            | Some (err, w') =>
                Next (advance s k
                        (mkGoroutine i WEnd (last (procs w')) (said g))
                        w' (<[i := set_Err err result]> rs) [])
            | None => Panic
            end
        | None => Panic
        end)
  | WEnd =>
      on_result s i (λ rs result,
        let '(t, e) := time_Now (ext w) in
        Next (advance s k (at_ WLog) (mkWorld (strs w) (procs w) e)
                      (<[i := set_EndTime t result]> rs) []))
  | WLog =>
      on_result s i (λ rs result,
        (* We don't log errors for prefetched WALs but just for the
           first WAL, which is the one requested by PostgreSQL. *)
        let entries := log_of i result (elems (strs w) options) in
        Next (advance s k (mkGoroutine i WDone (ran g) (said g ++ entries))
                      w rs entries))
  | WDone =>
      match wg_Add (-1) (waitGroup s) with
      | Some c =>
          Next (mkState w (resultList s) c (main s)
                        (<[k := at_ WExit]> (goroutines s)) (contextLog s))
      | None => Panic
      end
  | WExit => Blocked
  end.

Definition main_step (s : State) : outcome :=
  match main s with
  | MMake =>
      Next (mkState (world s) (Some (replicate (len fetchList) zeroResult))
                    (waitGroup s) (MAdd 0) (goroutines s) (contextLog s))
  | MAdd idx =>
      if decide (idx < len fetchList) then
        match wg_Add 1 (waitGroup s) with
        | Some c =>
            Next (mkState (world s) (resultList s) c (MGo idx)
                          (goroutines s) (contextLog s))
        | None => Panic
        end
      else
        Next (mkState (world s) (resultList s) (waitGroup s) MWait
                      (goroutines s) (contextLog s))
  | MGo idx =>
      Next (mkState (world s) (resultList s) (waitGroup s) (MAdd (S idx))
                    (goroutines s ++ [mkGoroutine idx WName None []])
                    (contextLog s))
  | MWait =>
      if decide (waitGroup s = 0%Z) then
        Next (mkState (world s) (resultList s) (waitGroup s) MDone
                      (goroutines s) (contextLog s))
      else Blocked
  | MDone => Blocked
  end.

(** One statement of the thread the scheduler picked. *)
Definition thread_step (t : tid) (s : State) : outcome :=
  match t with
  | Main => main_step s
  | Go k =>
      match goroutines s !! k with
      | Some g => goroutine_step k g s
      | None => Blocked
      end
  end.

(** The call starts with nothing allocated and no goroutine. *)
Definition initial (w : World) : State :=
  mkState w None 0%Z MMake [] [].

(** Run the threads in the order a schedule gives; [None] when the
    schedule picks a thread that cannot move, or a statement panics. *)
Fixpoint run (sched : list tid) (s : State) : option State :=
  match sched with
  | [] => Some s
  | t :: sched' =>
      match thread_step t s with
      | Next s' => run sched' s'
      | _ => None
      end
  end.

(** The states a call started in world [w] can be in. *)
Inductive reachable (w : World) : State → Prop :=
| reachable_initial : reachable w (initial w)
| reachable_step s t s' :
    reachable w s → thread_step t s = Next s' → reachable w s'.

(** What the call has returned, once it has. *)
Definition returned (s : State) : option (option (list Result)) :=
  match main s with
  | MDone => Some (resultList s)
  | _ => None
  end.

(** RestoreList under a schedule. *)
Definition RestoreList (sched : list tid) (w : World) : option State :=
  run sched (initial w).

End RestoreList.

End Restorer.


(** ** What a call is expected to do

    The quantities the statements about [RestoreList] are phrased with,
    for a call started in world [w0]. *)

(** [elapsedWalTime] of a finished result. *)
Definition elapsed (r : Result) : Duration :=
  time_Sub (EndTime r) (StartTime r).

(** The results whose fetch succeeded. *)
Definition succeeded (rs : list Result) : list Result :=
  filter (λ r, Err r = None) rs.

Section Expected.

Context `{Outside}.

Variable restorer : WALRestorer.
Variable fetchList : slice.
Variable destinationPath : string.
Variable options : slice.
Variable w0 : World.

(** The batch and the options as the caller passed them. *)
Definition batch : list string := elems (strs w0) fetchList.
Definition base_options : list string := elems (strs w0) options.

Definition name_at (j : nat) : string := default "" (batch !! j).

(** Where the segment at index [j] has to land. *)
Definition dest_at (j : nat) : string :=
  if decide (j = 0) then destinationPath
  else spool_FileName (spool restorer) (name_at j).

(** The command line of the fetch for index [j]. *)
Definition cmd_at (j : nat) : Cmd :=
  fetch_cmd restorer base_options (name_at j) (dest_at j).

(** What slot [j] holds once its goroutine is over, with [p] the
    subprocess that goroutine's [Restore] executed. *)
Definition slot_done (j : nat) (r : Result) (p : Proc) : Prop :=
  WalName r = name_at j
  ∧ DestinationPath r = dest_at j
  ∧ proc_cmd p = cmd_at j
  ∧ Err r = restore_err (proc_state p).

(** What the whole call writes to the log, result by result. *)
Definition log_at (j : nat) (r : Result) : list LogEntry :=
  log_of j r base_options.

(** How far a goroutine has got. *)
Definition rank (pc : wpc) : nat :=
  match pc with
  | WName => 0 | WDest => 1 | WStart => 2 | WRestore => 3
  | WEnd => 4 | WLog => 5 | WDone => 6 | WExit => 7
  end.

(** The slot of goroutine [g] holds what [g] has written so far, and
    nothing else. *)
Definition slot_inv (j : nat) (g : Goroutine) (r : Result) : Prop :=
  let k := rank (at_pc g) in
  walIndex g = j
  ∧ WalName r = (if 1 <=? k then name_at j else "")
  ∧ DestinationPath r = (if 2 <=? k then dest_at j else "")
  ∧ (k < 3 → StartTime r = 0%Z)
  ∧ (if 4 <=? k
     then ∃ p, ran g = Some p ∧ proc_cmd p = cmd_at j
               ∧ Err r = restore_err (proc_state p)
     else ran g = None ∧ Err r = None)
  ∧ (k < 5 → EndTime r = 0%Z)
  ∧ said g = (if 6 <=? k then log_at j r else []).

(** A goroutine counts in the wait group until its [Done]. *)
Definition live (g : Goroutine) : Z :=
  match at_pc g with
  | WExit => 0%Z
  | _ => 1%Z
  end.

Definition alive (gs : list Goroutine) : Z :=
  foldr (λ g acc, (live g + acc)%Z) 0%Z gs.

(** An [Add] whose [go] statement is still to come. *)
Definition pending (m : mpc) : Z :=
  match m with
  | MGo _ => 1%Z
  | _ => 0%Z
  end.

Definition ran_list (g : Goroutine) : list Proc := option_list (ran g).

(** The main thread against the goroutines it has started. *)
Definition main_inv (s : State) : Prop :=
  length (goroutines s) ≤ len fetchList ∧
  match main s with
  | MMake => resultList s = None ∧ goroutines s = []
  | MAdd idx => idx = length (goroutines s)
  | MGo idx => idx = length (goroutines s) ∧ idx < len fetchList
  | MWait => length (goroutines s) = len fetchList
  | MDone => length (goroutines s) = len fetchList ∧ waitGroup s = 0%Z
  end.

(** The invariant of the interleaved execution. *)
Record Inv (s : State) : Prop := mkInv {
  inv_strs : strs w0 ⊆ strs (world s);
  inv_main : main_inv s;
  inv_results :
    main s ≠ MMake →
    ∃ rs, resultList s = Some rs ∧ length rs = len fetchList;
  inv_slot :
    ∀ j g, goroutines s !! j = Some g →
      ∃ rs r, resultList s = Some rs ∧ rs !! j = Some r ∧ slot_inv j g r;
  inv_rest :
    ∀ rs j r, resultList s = Some rs → length (goroutines s) ≤ j →
      rs !! j = Some r → r = zeroResult;
  inv_wg : waitGroup s = (pending (main s) + alive (goroutines s))%Z;
  inv_procs : procs (world s) ≡ₚ procs w0 ++ (goroutines s ≫= ran_list);
  inv_log : contextLog s ≡ₚ goroutines s ≫= said
}.

(** Statements left to run: every step takes one away. *)
Definition main_left (m : mpc) : nat :=
  match m with
  | MMake => 9 * len fetchList + 3
  | MAdd idx => 9 * (len fetchList - idx) + 2
  | MGo idx => 9 * (len fetchList - idx) + 1
  | MWait => 1
  | MDone => 0
  end.

Definition left_to_run (s : State) : nat :=
  main_left (main s) + sum_list_with (λ g, 7 - rank (at_pc g)) (goroutines s).

End Expected.

(** ** The constructor *)

Section NewRestorer.

Context `{Outside}.

(** [spool.New]: makes the spool directory; it hands back the spool and
    an error, as the Go function does. *)
Variable spool_New : string → Ext → (WALSpool * option error) * Ext.

(** [fmt.Errorf("while creating spool directory: %w", err)]. *)
Definition Errorf_spool (err : error) : error :=
  wrapError ("while creating spool directory: " +:+ Error err) err.

(** [contextLog.Info("Cannot initialize the WAL spool", ...)]. *)
Definition spool_entry (spoolDirectory : string) : LogEntry :=
  mkLogEntry InfoLevel "Cannot initialize the WAL spool"
    [("spoolDirectory", VString spoolDirectory)].

(** New creates a new WAL archiver.  The result is the restorer (nil on
    failure), the error, and the entries written to the context's logger. *)
Definition New (cluster : Cluster) (env : list string) (spoolDirectory : string) :
    M (option WALRestorer * option error * list LogEntry) :=
  bind (with_ext (spool_New spoolDirectory)) (λ made,
    let '(walRecoverSpool, err) := made in
    match err with
    | Some e => ret (None, Some (Errorf_spool e), [spool_entry spoolDirectory])
    | None => ret (Some (mkWALRestorer cluster walRecoverSpool env), None, [])
    end).

End NewRestorer.

(** ** What one statement of a goroutine does *)

Section Effects.

Context `{Outside}.

Variable restorer : WALRestorer.
Variable fetchList : slice.
Variable destinationPath : string.
Variable options : slice.
Variable w0 : World.

(** Goroutine [g] at index [k] becomes [g'], its slot goes from [r] to
    [r'], and the rest of the state goes from [s] to [s']. *)
Definition step_effect (k : nat) (g g' : Goroutine) (r r' : Result)
    (s s' : State) : Prop :=
  let w := world s in
  match at_pc g with
  | WName =>
      r' = set_WalName (name_at fetchList w0 k) r
      ∧ world s' = w ∧ ran g' = ran g
      ∧ contextLog s' = contextLog s ∧ waitGroup s' = waitGroup s
  | WDest =>
      r' = set_DestinationPath (dest_at restorer fetchList destinationPath w0 k) r
      ∧ world s' = w ∧ ran g' = ran g
      ∧ contextLog s' = contextLog s ∧ waitGroup s' = waitGroup s
  | WStart =>
      r' = set_StartTime (time_Now (ext w)).1 r
      ∧ world s' = mkWorld (strs w) (procs w) (time_Now (ext w)).2
      ∧ ran g' = ran g
      ∧ contextLog s' = contextLog s ∧ waitGroup s' = waitGroup s
  | WRestore =>
      let c := cmd_at restorer fetchList destinationPath options w0 k in
      let st := (os_run c (ext w)).1 in
      r' = set_Err (restore_err st) r
      ∧ procs (world s') = procs w ++ [mkProc c st]
      ∧ ext (world s') = (os_run c (ext w)).2
      ∧ ran g' = Some (mkProc c st)
      ∧ contextLog s' = contextLog s ∧ waitGroup s' = waitGroup s
  | WEnd =>
      r' = set_EndTime (time_Now (ext w)).1 r
      ∧ world s' = mkWorld (strs w) (procs w) (time_Now (ext w)).2
      ∧ ran g' = ran g
      ∧ contextLog s' = contextLog s ∧ waitGroup s' = waitGroup s
  | WLog =>
      r' = r ∧ world s' = w ∧ ran g' = ran g
      ∧ contextLog s' = contextLog s ++ log_at options w0 k r
      ∧ waitGroup s' = waitGroup s
  | WDone =>
      r' = r ∧ world s' = w ∧ ran g' = ran g
      ∧ contextLog s' = contextLog s
      ∧ waitGroup s' = (waitGroup s - 1)%Z
  | WExit => False
  end.

End Effects.

(** ** Assumptions on the outside that some statements need *)

Section OutsideAssumptions.

Context `{Outside}.

(** A clock that never runs backwards: [time.Now] reads a time between
    the clock before and the clock after, and a subprocess does not set
    the clock back. *)
Definition monotone_clock (clock : Ext → Time) : Prop :=
  (∀ e, (clock e ≤ (time_Now e).1)%Z ∧ ((time_Now e).1 ≤ clock (time_Now e).2)%Z)
  ∧ (∀ c e, (clock e ≤ clock (os_run c e).2)%Z).

(** A fetch tool whose exit depends on its command line only, as long as
    the outside stays within [stable]. *)
Definition decided_by_command (stable : Ext → Prop)
    (exit_of : Cmd → ProcessState) : Prop :=
  (∀ e, stable e → stable (time_Now e).2)
  ∧ (∀ c e, stable e → stable (os_run c e).2 ∧ (os_run c e).1 = exit_of c).

End OutsideAssumptions.

(** ** The streamed output of the subprocesses *)

Section Streamed.

Context `{Outside}.

(** Modelled from the spec: the execlog package, whose code is not among
    the sources, streams what a subprocess writes to the log, line by
    line, at informational level and under the name of the command.
    [streamed] reads off the outside the entries streamed so far:
    reading the clock streams nothing, and running a subprocess adds
    informational entries and nothing else. *)
Definition streams_output (streamed : Ext → list LogEntry) : Prop :=
  (∀ e, streamed (time_Now e).2 = streamed e)
  ∧ (∀ c e, ∃ out, streamed (os_run c e).2 = streamed e ++ out
                    ∧ Forall (λ x, level x = InfoLevel) out).

End Streamed.

(** ** Two calls at the same time

    Two calls of [RestoreList] that run concurrently share the backing
    arrays, the subprocesses and the outside; the result slice, the wait
    group and the goroutines of each are its own, the [make] in each
    call giving it a slice no one else has. *)

Section TwoCalls.

Context `{Outside}.

(** The receiver and the arguments of one call. *)
Record Call : Type := mkCall {
  c_restorer : WALRestorer;
  c_fetchList : slice;
  c_destinationPath : string;
  c_options : slice
}.

(** One statement of a thread of the call. *)
Definition call_step (c : Call) (t : tid) (s : State) : outcome :=
  thread_step (c_restorer c) (c_fetchList c) (c_destinationPath c)
              (c_options c) t s.

(** A call as it finds the world after a statement of the other one. *)
Definition in_world (w : World) (s : State) : State :=
  mkState w (resultList s) (waitGroup s) (main s) (goroutines s) (contextLog s).

Inductive side : Type :=
| First
| Second.

#[global] Instance side_eq_dec : EqDecision side.
Proof. solve_decision. Defined.

Definition other (x : side) : side :=
  match x with
  | First => Second
  | Second => First
  end.

(** The two calls; both states hold the one shared world. *)
Record Two : Type := mkTwo {
  state1 : State;
  state2 : State
}.

Definition call (x : side) (p : Two) : State :=
  match x with
  | First => state1 p
  | Second => state2 p
  end.

Inductive outcome2 : Type :=
| Next2 (p : Two)
| Blocked2
| Panic2.

(** Thread [t] of call [x] runs one statement. *)
Definition step2 (calls : side → Call) (x : side) (t : tid) (p : Two) : outcome2 :=
  match call_step (calls x) t (call x p) with
  | Next s' =>
      Next2 (match x with
             | First => mkTwo s' (in_world (world s') (state2 p))
             | Second => mkTwo (in_world (world s') (state1 p)) s'
             end)
  | Blocked => Blocked2
  | Panic => Panic2
  end.

Definition initial2 (w : World) : Two := mkTwo (initial w) (initial w).

Fixpoint run2 (calls : side → Call) (sched : list (side * tid)) (p : Two) :
    option Two :=
  match sched with
  | [] => Some p
  | (x, t) :: sched' =>
      match step2 calls x t p with
      | Next2 p' => run2 calls sched' p'
      | _ => None
      end
  end.

(** The states two calls started in world [w] can be in. *)
Inductive reachable2 (calls : side → Call) (w : World) : Two → Prop :=
| reachable2_initial : reachable2 calls w (initial2 w)
| reachable2_step p x t p' :
    reachable2 calls w p → step2 calls x t p = Next2 p' →
    reachable2 calls w p'.

(** The subprocesses the goroutines of a call have executed so far. *)
Definition fetches (s : State) : list Proc := goroutines s ≫= ran_list.

(** The file a fetch subprocess writes: its last argument. *)
Definition destination (p : Proc) : option string := last (Args (proc_cmd p)).

(** The world a call started in [w0] has to account for, the other call
    being in state [s]. *)
Definition base_world (w0 : World) (s : State) : World :=
  mkWorld (strs w0) (procs w0 ++ fetches s) (ext w0).

(** Each call keeps its invariant, over what the other one has done. *)
Definition Inv2 (calls : side → Call) (w0 : World) (p : Two) : Prop :=
  world (state1 p) = world (state2 p)
  ∧ ∀ x, Inv (c_restorer (calls x)) (c_fetchList (calls x))
             (c_destinationPath (calls x)) (c_options (calls x))
             (base_world w0 (call (other x) p)) (call x p).

Definition left_to_run2 (calls : side → Call) (p : Two) : nat :=
  left_to_run (c_fetchList (calls First)) (state1 p)
  + left_to_run (c_fetchList (calls Second)) (state2 p).

End TwoCalls.
(** ** A small outside world to run the model in *)

Module Demo.

(** A clock, the names of the segments the remote archive holds, and the
    local files (path to content). *)
Record Sim : Type := mkSim {
  clock : Time;
  archive : list string;
  disk : gmap string string
}.

(** The fetch tool: the last two arguments are the segment and the
    destination; a segment the archive holds is written there. *)
Definition fetch_tool (c : Cmd) (e : Sim) : ProcessState * Sim :=
  match reverse (Args c) with
  | dest :: name :: _ =>
      if decide (name ∈ archive e) then
        (Exited 0, mkSim (clock e + 5)%Z (archive e) (<[dest := name]> (disk e)))
      else (Exited 1, mkSim (clock e + 3)%Z (archive e) (disk e))
  | _ => (StartFailed "usage", e)
  end.

Definition wall_clock (e : Sim) : Time * Sim :=
  (clock e, mkSim (clock e + 1)%Z (archive e) (disk e)).

Definition tool : string := "barman-cloud-wal-restore".

(** A spool is its directory. *)
Definition FileName (dir name : string) : string := dir +:+ "/" +:+ name.

Definition ErrorNonExistentFile : error := errorString "file does not exist".

Definition MoveOut (dir name dest : string) (e : Sim) : option error * Sim :=
  match disk e !! FileName dir name with
  | Some content =>
      if decide (dest = "") then (Some (errorString "open : no such file or directory"), e)
      else (None, mkSim (clock e) (archive e)
                        (<[dest := content]> (delete (FileName dir name) (disk e))))
  | None => (Some ErrorNonExistentFile, e)
  end.

Definition outside : Outside := {|
  Ext := Sim;
  os_run := fetch_tool;
  time_Now := wall_clock;
  BarmanCloudWalRestore := tool;
  Cluster := unit;
  WALSpool := string;
  spool_FileName := FileName;
  spool_MoveOut := MoveOut;
  spool_ErrorNonExistentFile := ErrorNonExistentFile
|}.

Definition restorer : @WALRestorer outside :=
  @mkWALRestorer outside tt "/spool" ["AWS_REGION=eu"].

Definition A : string := "00000001000000000000004A".
Definition B : string := "00000001000000000000004B".
Definition C : string := "00000001000000000000004C".

(** Two arrays: the batch, and the options with one spare element
    behind the slice. *)
Definition h0 : arrays := {[ 1%positive := [A; B; C]; 2%positive := ["--endpoint"; "s3"; "spare"] ]}.
Definition fetchList : slice := Slice (Some 1%positive) 0 3 3.
Definition options : slice := Slice (Some 2%positive) 0 2 3.

(** The path PostgreSQL asked for. *)
Definition dest : string := "/pg/RECOVERYXLOG".

(** The archive holds A and C but not B. *)
Definition w0 : @World outside := @mkWorld outside h0 [] (mkSim 100%Z [A; C] ∅).

(** Goroutine after goroutine, in the order they were started. *)
Definition in_order (n : nat) : list tid :=
  Main :: mjoin ((λ _, [Main; Main]) <$> seq 0 n) ++ [Main]
    ++ mjoin ((λ k, replicate 7 (Go k)) <$> seq 0 n) ++ [Main].

(** The last goroutine first, each one started as late as possible. *)
Definition reversed (n : nat) : list tid :=
  Main :: mjoin ((λ _, [Main; Main]) <$> seq 0 n) ++ [Main]
    ++ mjoin ((λ k, replicate 7 (Go k)) <$> reverse (seq 0 n)) ++ [Main].

End Demo.


(** ** More of the small world *)

Module DemoMore.

Import Demo.

(** Making the spool directory fails for the empty path only. *)
Definition spool_new (spoolDirectory : string) (e : Sim) :
    (string * option error) * Sim :=
  if decide (spoolDirectory = "") then
    ((spoolDirectory, Some (errorString "mkdir : no such file or directory")), e)
  else ((spoolDirectory, None), e).

(** A spool whose [MoveOut] wraps the sentinel when the file is missing. *)
Definition MoveOut_wrapping (dir name dest : string) (e : Sim) : option error * Sim :=
  match disk e !! FileName dir name with
  | Some _ => MoveOut dir name dest e
  | None => (Some (wrapError "rename: file does not exist" ErrorNonExistentFile), e)
  end.

Definition outside_wrapping : Outside := {|
  Ext := Sim;
  os_run := fetch_tool;
  time_Now := wall_clock;
  BarmanCloudWalRestore := tool;
  Cluster := unit;
  WALSpool := string;
  spool_FileName := FileName;
  spool_MoveOut := MoveOut_wrapping;
  spool_ErrorNonExistentFile := ErrorNonExistentFile
|}.

(** No step of the small world changes the archive. *)
Definition stable (e : Sim) : Prop := archive e = [A; C].

(** How the fetch tool ends for a command line, with that archive. *)
Definition exit_of (c : Cmd) : ProcessState :=
  (fetch_tool c (mkSim 0%Z [A; C] ∅)).1.

(** The calling thread runs to [Wait], then the goroutines take turns,
    one statement each. *)
Definition round_robin (n : nat) : list tid :=
  Main :: mjoin ((λ _, [Main; Main]) <$> seq 0 n) ++ [Main]
    ++ mjoin (replicate 7 (Go <$> seq 0 n)) ++ [Main].

End DemoMore.

(** ** The small world with the streamed output kept *)

Module DemoStream.

Import Demo.

(** The small world, and the entries the execlog package has streamed. *)
Record SimLog : Type := mkSimLog {
  sim : Sim;
  sink : list LogEntry
}.

(** What the fetch tool prints: nothing when it succeeds, one line that
    names the segment when it does not find it. *)
Definition tool_output (c : Cmd) (st : ProcessState) : list LogEntry :=
  match st, reverse (Args c) with
  | Exited 0, _ => []
  | _, _ :: name :: _ =>
      [mkLogEntry InfoLevel ("ERROR: WAL file " +:+ name +:+ " not found")
                  [("logger", VString tool); ("pipe", VString "stderr")]]
  | _, _ => []
  end.

(** Modelled from the spec: the execlog package, whose code is not among
    the sources, sends what the subprocess prints to the log at
    informational level, under the name of the tool. *)
Definition fetch_tool_streaming (c : Cmd) (e : SimLog) : ProcessState * SimLog :=
  let '(st, x) := fetch_tool c (sim e) in
  (st, mkSimLog x (sink e ++ tool_output c st)).

Definition wall_clock_streaming (e : SimLog) : Time * SimLog :=
  let '(t, x) := wall_clock (sim e) in (t, mkSimLog x (sink e)).

Definition MoveOut_streaming (dir name dest : string) (e : SimLog) :
    option error * SimLog :=
  let '(err, x) := MoveOut dir name dest (sim e) in (err, mkSimLog x (sink e)).

Definition outside : Outside := {|
  Ext := SimLog;
  os_run := fetch_tool_streaming;
  time_Now := wall_clock_streaming;
  BarmanCloudWalRestore := tool;
  Cluster := unit;
  WALSpool := string;
  spool_FileName := FileName;
  spool_MoveOut := MoveOut_streaming;
  spool_ErrorNonExistentFile := ErrorNonExistentFile
|}.

Definition restorer : @WALRestorer outside :=
  @mkWALRestorer outside tt "/spool" ["AWS_REGION=eu"].

(** The archive holds A and C but not B; nothing has been streamed. *)
Definition w0 : @World outside :=
  @mkWorld outside h0 [] (mkSimLog (mkSim 100%Z [A; C] ∅) []).

(** The line the fetch of B leaves in the log. *)
Definition B_not_found : LogEntry :=
  mkLogEntry InfoLevel "ERROR: WAL file 00000001000000000000004B not found"
             [("logger", VString tool); ("pipe", VString "stderr")].

End DemoStream.

(** ** Two calls in the small world *)

Module DemoTwo.

Import Demo.

(** The one array of names seen through two slices: A for one call, B
    and C for the other. *)
Definition batch1 : slice := Slice (Some 1%positive) 0 1 3.
Definition batch2 : slice := Slice (Some 1%positive) 1 2 2.

Definition dest2 : string := "/pg2/RECOVERYXLOG".

(** Two calls on the same restorer, each with the path of its own
    PostgreSQL. *)
Definition calls (x : side) : @Call outside :=
  match x with
  | First => @mkCall outside restorer batch1 dest options
  | Second => @mkCall outside restorer batch2 dest2 options
  end.

(** The same, but the first call is asked to put A where the spool
    keeps C. *)
Definition calls_into_spool (x : side) : @Call outside :=
  match x with
  | First => @mkCall outside restorer batch1 (FileName "/spool" C) options
  | Second => @mkCall outside restorer batch2 dest2 options
  end.

(** The second call starts its goroutines and prefetches C; the first
    call runs from start to return; then the second call fetches B and
    returns. *)
Definition overlapping : list (side * tid) :=
  (pair Second <$> replicate 6 Main ++ replicate 7 (Go 1))
  ++ (pair First <$> in_order 1)
  ++ (pair Second <$> replicate 7 (Go 0) ++ [Main]).

End DemoTwo.
(** * Properties *)

(** ** Slices *)

Lemma length_elems (h : arrays) (s : slice) :
  slice_ok h s → length (elems h s) = len s.
Proof.
  intros [Hlen Hcap]. unfold elems.
  rewrite length_take, length_drop. lia.
Qed.

Lemma index_elems (h : arrays) (s : slice) (i : nat) :
  index h s i = elems h s !! i.
Proof.
  unfold index, elems. destruct (decide (i < len s)) as [Hi|Hi].
  - by rewrite lookup_take_lt, lookup_drop.
  - by rewrite lookup_take_ge by lia.
Qed.

(** A store that only gained arrays shows every well-formed slice as before. *)
Lemma elems_subseteq (h h' : arrays) (s : slice) :
  slice_ok h s → h ⊆ h' → elems h' s = elems h s.
Proof.
  intros [Hlen Hcap] Hsub. unfold elems, arr_of in *.
  destruct (array s) as [l|]; [|done].
  destruct (h !! l) as [arr|] eqn:Hl.
  - by rewrite (lookup_weaken _ _ _ _ Hl Hsub).
  - simpl in Hcap. assert (len s = 0) as -> by lia. done.
Qed.

Lemma slice_ok_subseteq (h h' : arrays) (s : slice) :
  slice_ok h s → h ⊆ h' → slice_ok h' s.
Proof.
  intros [Hlen Hcap] Hsub. split; [done|]. unfold arr_of in *.
  destruct (array s) as [l|]; [|done].
  destruct (h !! l) as [arr|] eqn:Hl.
  - by rewrite (lookup_weaken _ _ _ _ Hl Hsub).
  - simpl in *. lia.
Qed.

Lemma write_at_0_replicate (vs : list string) (n k : nat) :
  length vs = n → write_at 0 vs (replicate (n + k) "") = vs ++ replicate k "".
Proof.
  intros <-. unfold write_at. simpl. by rewrite drop_replicate_add.
Qed.

Lemma write_at_end (vs ws rest : list string) :
  length ws = length rest →
  write_at (length vs) ws (vs ++ rest) = vs ++ ws.
Proof.
  intros Hlen. unfold write_at.
  rewrite take_app_length, drop_app_ge by lia.
  rewrite drop_ge by lia. by rewrite app_nil_r.
Qed.

(** ** Restore *)

Section RestoreProofs.

Context `{Outside}.

(** [Restore] in one equation: a fresh array receives the options and
    the two positional arguments, one subprocess runs. *)
Lemma Restore_run (restorer : WALRestorer) (walName destinationPath : string)
    (baseOptions : slice) (w : World) :
  slice_ok (strs w) baseOptions →
  let opts := elems (strs w) baseOptions in
  let c := fetch_cmd restorer opts walName destinationPath in
  Restore restorer walName destinationPath baseOptions w =
    Some (restore_err (os_run c (ext w)).1,
          mkWorld (<[fresh (dom (strs w)) := opts ++ [walName; destinationPath]]> (strs w))
                  (procs w ++ [mkProc c (os_run c (ext w)).1])
                  (os_run c (ext w)).2).
Proof.
  intros Hok. cbv zeta.
  set (h := strs w). set (l := fresh (dom h)). set (n := len baseOptions).
  set (opts := elems h baseOptions).
  set (c := fetch_cmd restorer opts walName destinationPath).
  assert (h !! l = None) as Hl.
  { apply not_elem_of_dom. apply is_fresh. }
  assert (h ⊆ <[l := replicate (n + 2) ""]> h) as Hsub by by apply insert_subseteq.
  unfold Restore, bind, with_strs_opt, with_strs, read_strs, make, copy, append,
    execlog_RunStreaming, ret. simpl.
  fold h l n.
  destruct (decide (n ≤ n + 2)) as [_|?]; [|lia]. simpl.
  destruct (decide (n + 2 ≤ n + 2)) as [_|?]; [|lia]. simpl.
  rewrite Nat.min_id.
  rewrite (elems_subseteq h _ baseOptions Hok Hsub). fold opts.
  assert (length opts = n) as Hn by by apply length_elems.
  rewrite take_ge by lia.
  unfold store_at. simpl.
  rewrite alter_insert_eq.
  rewrite write_at_0_replicate by done.
  rewrite alter_insert_eq.
  replace (write_at n [walName; destinationPath] (opts ++ replicate 2 ""))
    with (opts ++ [walName; destinationPath]).
  2:{ rewrite <- Hn. by rewrite write_at_end. }
  unfold elems, arr_of. simpl. rewrite lookup_insert_eq. simpl.
  rewrite drop_0, take_ge by (rewrite length_app; simpl; lia).
  change (set_Env (exec_Command BarmanCloudWalRestore
            (opts ++ [walName; destinationPath])) (env restorer)) with c.
  destruct (os_run c (ext w)) as [st e]. simpl.
  unfold restore_err. by destruct (run_error st).
Qed.

End RestoreProofs.

(** ** Counting over the goroutines *)

Lemma live_nonneg (g : Goroutine) : (0 ≤ live g)%Z.
Proof. unfold live. destruct (at_pc g); lia. Qed.

Lemma alive_nonneg (gs : list Goroutine) : (0 ≤ alive gs)%Z.
Proof.
  induction gs as [|g gs IH]; simpl; [lia|].
  pose proof (live_nonneg g). lia.
Qed.

Lemma alive_app (gs gs' : list Goroutine) :
  alive (gs ++ gs') = (alive gs + alive gs')%Z.
Proof. induction gs as [|g gs IH]; simpl; lia. Qed.

Lemma alive_insert (gs : list Goroutine) (k : nat) (g g' : Goroutine) :
  gs !! k = Some g →
  alive (<[k:=g']> gs) = (alive gs - live g + live g')%Z.
Proof.
  revert k. induction gs as [|g0 gs IH]; intros [|k] Hk; simplify_eq/=.
  - lia.
  - rewrite (IH k Hk). lia.
Qed.

Lemma alive_lookup (gs : list Goroutine) (k : nat) (g : Goroutine) :
  gs !! k = Some g → (live g ≤ alive gs)%Z.
Proof.
  revert k. induction gs as [|g0 gs IH]; intros [|k] Hk; simplify_eq/=.
  - pose proof (alive_nonneg gs). lia.
  - pose proof (IH k Hk). pose proof (live_nonneg g0). lia.
Qed.

Lemma alive_0_exited (gs : list Goroutine) (k : nat) (g : Goroutine) :
  alive gs = 0%Z → gs !! k = Some g → at_pc g = WExit.
Proof.
  intros H0 Hk. pose proof (alive_lookup _ _ _ Hk) as Hle.
  pose proof (live_nonneg g). unfold live in *.
  destruct (at_pc g); try done; lia.
Qed.

Lemma bind_insert_app {A B} (f : A → list B) (l : list A) (k : nat)
    (x y : A) (add : list B) :
  l !! k = Some x → f y = f x ++ add →
  <[k:=y]> l ≫= f ≡ₚ (l ≫= f) ++ add.
Proof.
  intros Hk Hf. revert k Hk.
  induction l as [|a l IH]; intros [|k] Hk; simplify_eq/=.
  - rewrite Hf, <- !(assoc_L (++)).
    apply Permutation_app_head, Permutation_app_comm.
  - rewrite (IH k Hk). by rewrite (assoc_L (++)).
Qed.

Lemma sum_list_with_insert {A} (f : A → nat) (l : list A) (k : nat) (x y : A) :
  l !! k = Some x →
  sum_list_with f (<[k:=y]> l) + f x = sum_list_with f l + f y.
Proof.
  revert k. induction l as [|a l IH]; intros [|k] Hk; simplify_eq/=.
  - lia.
  - pose proof (IH k Hk). lia.
Qed.

Lemma rank_le_7 (pc : wpc) : rank pc ≤ 7.
Proof. destruct pc; simpl; lia. Qed.

(** ** The invariant holds along every execution *)

Section RestoreListProofs.

Context `{Outside}.

Variable restorer : WALRestorer.
Variable fetchList : slice.
Variable destinationPath : string.
Variable options : slice.
Variable w0 : World.

Hypothesis fetchList_ok : slice_ok (strs w0) fetchList.
Hypothesis options_ok : slice_ok (strs w0) options.

Local Abbreviation INV := (Inv restorer fetchList destinationPath options w0).
Local Abbreviation SLOT := (slot_inv restorer fetchList destinationPath options w0).
Local Abbreviation step := (thread_step restorer fetchList destinationPath options).
Local Abbreviation left := (left_to_run fetchList).
Local Abbreviation name := (name_at fetchList w0).
Local Abbreviation dest := (dest_at restorer fetchList destinationPath w0).
Local Abbreviation opts := (base_options options w0).

Lemma initial_inv : INV (initial w0).
Proof.
  split; simpl; try done.
  - split; [simpl; lia|done].
  - by rewrite app_nil_r.
Qed.

Lemma index_fetchList (h : gmap positive (list string)) (j : nat) :
  strs w0 ⊆ h → j < len fetchList →
  index h fetchList j = Some (name j).
Proof.
  intros Hsub Hj. rewrite index_elems, (elems_subseteq (strs w0)) by done.
  unfold name_at, batch.
  destruct (elems (strs w0) fetchList !! j) as [x|] eqn:Hx; [done|].
  apply lookup_ge_None in Hx. rewrite length_elems in Hx by done. lia.
Qed.

(** A goroutine's statement, in general: slot [k] and the goroutine
    change, the world may grow, entries may be logged. *)
Lemma advance_inv (s : State) (k : nat) (g g' : Goroutine)
    (rs : list Result) (r r' : Result) (w' : World)
    (added : list Proc) (entries : list LogEntry) (c : Z) :
  INV s →
  goroutines s !! k = Some g → resultList s = Some rs → rs !! k = Some r →
  SLOT k g' r' →
  strs (world s) ⊆ strs w' →
  procs w' = procs (world s) ++ added →
  ran_list g' = ran_list g ++ added →
  said g' = said g ++ entries →
  c = (waitGroup s - live g + live g')%Z →
  rank (at_pc g') = S (rank (at_pc g)) →
  let s' := mkState w' (Some (<[k:=r']> rs)) c (main s)
                    (<[k:=g']> (goroutines s)) (contextLog s ++ entries) in
  INV s' ∧ left s' + 1 = left s.
Proof.
  intros [Hstrs [Hlen Hmain] Hres Hslot Hrest Hwg Hprocs Hlog]
    Hg Hrs Hr Hslot' Hsub Hadded Hran Hsaid Hc Hrank s'.
  assert (k < length rs) as Hk by by eapply lookup_lt_Some.
  assert (main s ≠ MMake) as Hnomake.
  { intros Hm. rewrite Hm in Hmain. destruct Hmain as [_ Hnil].
    by rewrite Hnil in Hg. }
  assert (main s = MDone → live g' = live g) as Hdone.
  { intros Hm. rewrite Hm in Hmain. destruct Hmain as [_ H0].
    rewrite Hm, H0 in Hwg. simpl in Hwg.
    assert (at_pc g = WExit) as Hexit by (eapply alive_0_exited; [|done]; lia).
    rewrite Hexit in Hrank. pose proof (rank_le_7 (at_pc g')). simpl in *. lia. }
  split.
  - split; simpl.
    + by etrans.
    + unfold main_inv. simpl. rewrite length_insert. split; [done|].
      destruct (main s) eqn:Hm; try done.
      destruct Hmain as [? H0]. split; [done|]. rewrite Hc, Hdone by done. lia.
    + intros _. exists (<[k:=r']> rs). split; [done|].
      rewrite length_insert. destruct (Hres Hnomake) as (rs0 & ? & ?).
      by simplify_eq.
    + intros j gj Hj. exists (<[k:=r']> rs).
      destruct (decide (j = k)) as [->|Hne].
      * rewrite list_lookup_insert_eq in Hj by by eapply lookup_lt_Some.
        simplify_eq. exists r'. by rewrite list_lookup_insert_eq.
      * rewrite list_lookup_insert_ne in Hj by done.
        destruct (Hslot j gj Hj) as (rs0 & rj & ? & ? & ?). simplify_eq.
        exists rj. by rewrite list_lookup_insert_ne.
    + intros rs1 j rj ? Hj Hrj. simplify_eq. rewrite length_insert in Hj.
      apply lookup_lt_Some in Hg.
      rewrite list_lookup_insert_ne in Hrj by lia. by eapply Hrest.
    + rewrite Hc, (alive_insert _ _ _ _ Hg). lia.
    + rewrite Hadded, Hprocs, (bind_insert_app _ _ _ _ _ _ Hg Hran).
      by rewrite (assoc_L (++)).
    + by rewrite Hlog, (bind_insert_app _ _ _ _ _ _ Hg Hsaid).
  - unfold left_to_run, s'. simpl.
    pose proof (sum_list_with_insert (λ g, 7 - rank (at_pc g)) _ _ _ g' Hg) as Hsum.
    simpl in Hsum. pose proof (rank_le_7 (at_pc g')). lia.
Qed.

Ltac slot_tac :=
  destruct_and?;
  repeat match goal with
    | H : _ < _ → _ |- _ => first [specialize (H ltac:(simpl; lia)) | clear H]
    end;
  unfold slot_inv; simpl; repeat split; simpl; intros;
  try done; try lia; eauto.

(** Every statement of a goroutine keeps the invariant and uses up one
    unit of the measure; only a goroutine that has ended cannot move. *)
Lemma goroutine_step_ok (s : State) (k : nat) (g : Goroutine) :
  INV s → goroutines s !! k = Some g →
  match goroutine_step restorer fetchList destinationPath options k g s with
  | Next s' => INV s' ∧ left s' + 1 = left s
  | Blocked => at_pc g = WExit
  | Panic => False
  end.
Proof.
  intros HI Hg.
  destruct (inv_slot _ _ _ _ _ _ HI k g Hg) as (rs & r & Hrs & Hr & Hslot).
  pose proof HI as [Hstrs [Hlen _] _ _ _ Hwg _ _].
  assert (k < len fetchList) as Hk by (apply lookup_lt_Some in Hg; lia).
  pose proof (index_fetchList _ k Hstrs Hk) as Hix.
  pose proof (elems_subseteq _ _ _ options_ok Hstrs) as Hopts.
  pose proof (alive_lookup _ _ _ Hg) as Hlive.
  destruct Hslot as (Hi & Hname & Hdest & Hst & Hran & Hend & Hsaid).
  destruct g as [i pc rn sd]; simpl in *; subst i.
  unfold goroutine_step, on_result; simpl.
  destruct pc; simpl in *; rewrite ?Hrs, ?Hr, ?Hix; simpl.
  - (* result.WalName = fetchList[walIndex] *)
    apply (advance_inv s k _ (mkGoroutine k WDest rn sd) rs r _ (world s) [] []
             (waitGroup s) HI Hg Hrs Hr); simpl; rewrite ?app_nil_r; try done;
      try (unfold live; simpl; lia).
    slot_tac.
  - (* result.DestinationPath = ... *)
    apply (advance_inv s k _ (mkGoroutine k WStart rn sd) rs r _ (world s) [] []
             (waitGroup s) HI Hg Hrs Hr); simpl; rewrite ?app_nil_r; try done;
      try (unfold live; simpl; lia).
    slot_tac. unfold dest_at. by rewrite Hname.
  - (* result.StartTime = time.Now() *)
    destruct (time_Now (ext (world s))) as [t e].
    apply (advance_inv s k _ (mkGoroutine k WRestore rn sd) rs r _
             (mkWorld (strs (world s)) (procs (world s)) e) [] []
             (waitGroup s) HI Hg Hrs Hr); simpl; rewrite ?app_nil_r; try done;
      try (unfold live; simpl; lia).
    slot_tac.
  - (* result.Err = restorer.Restore(...) *)
    rewrite Restore_run by by eapply slice_ok_subseteq.
    simpl. rewrite last_snoc, Hopts, Hdest. fold opts.
    set (c := fetch_cmd restorer opts (name k) (dest k)).
    destruct (os_run c (ext (world s))) as [st e]. simpl.
    destruct Hran as [Hrn _].
    apply (advance_inv s k _ (mkGoroutine k WEnd (Some (mkProc c st)) sd) rs r _ _
             [mkProc c st] [] (waitGroup s) HI Hg Hrs Hr);
      simpl; rewrite ?app_nil_r; try done;
      try (unfold live; simpl; lia).
    + slot_tac.
    + apply insert_subseteq, not_elem_of_dom, is_fresh.
    + unfold ran_list. simpl. by rewrite Hrn.
  - (* result.EndTime = time.Now() *)
    destruct (time_Now (ext (world s))) as [t e].
    apply (advance_inv s k _ (mkGoroutine k WLog rn sd) rs r _
             (mkWorld (strs (world s)) (procs (world s)) e) [] []
             (waitGroup s) HI Hg Hrs Hr); simpl; rewrite ?app_nil_r; try done;
      try (unfold live; simpl; lia).
    slot_tac.
  - (* contextLog.Info or contextLog.Warning *)
    rewrite Hopts. fold opts.
    pose proof (advance_inv s k _ (mkGoroutine k WDone rn (sd ++ log_of k r opts))
             rs r r (world s) [] (log_of k r opts)
             (waitGroup s) HI Hg Hrs Hr) as Hadv.
    simpl in Hadv. rewrite list_insert_id in Hadv by done.
    apply Hadv; rewrite ?app_nil_r; try done;
      try (unfold live; simpl; lia).
    slot_tac. by rewrite Hsaid.
  - (* waitGroup.Done() *)
    unfold wg_Add. unfold live in Hlive. simpl in Hlive.
    assert (0 ≤ pending (main s))%Z by (unfold pending; destruct (main s); lia).
    destruct (decide _) as [?|_]; [lia|].
    pose proof (advance_inv s k _ (mkGoroutine k WExit rn sd)
             rs r r (world s) [] []
             (waitGroup s + -1)%Z HI Hg Hrs Hr) as Hadv.
    simpl in Hadv. rewrite list_insert_id, !app_nil_r in Hadv by done.
    apply Hadv; rewrite ?app_nil_r; try done;
      try (unfold live; simpl; lia).
    slot_tac.
  - done.
Qed.

(** Every statement of the calling thread keeps the invariant too; it
    waits only in [Wait], and only while the counter is not zero. *)
Lemma main_step_ok (s : State) :
  INV s →
  match main_step fetchList s with
  | Next s' => INV s' ∧ left s' + 1 = left s
  | Blocked => main s = MDone ∨ (main s = MWait ∧ waitGroup s ≠ 0%Z)
  | Panic => False
  end.
Proof.
  intros [Hstrs [Hlen Hmain] Hres Hslot Hrest Hwg Hprocs Hlog].
  pose proof (alive_nonneg (goroutines s)) as Hnn.
  unfold main_step, left_to_run. destruct (main s) as [|idx|idx| |] eqn:Hm; simpl in *.
  - (* make *)
    destruct Hmain as [Hnil Hgs]. rewrite Hgs in *. simpl in *.
    split; [split; simpl|lia].
    + done.
    + unfold main_inv. simpl. split; [lia|done].
    + intros _. eexists. split; [done|]. by rewrite length_replicate.
    + done.
    + intros rs j r ? _ Hj. simplify_eq.
      by apply lookup_replicate_1 in Hj as [-> _].
    + done.
    + done.
    + done.
  - (* loop test and Add *)
    subst idx. destruct (decide _) as [Hlt|Hge].
    + unfold wg_Add. destruct (decide _) as [?|_]; [lia|].
      split; [split; simpl|simpl; lia]; try done;
        try (intros _; by apply Hres); try lia.
    + split; [split; simpl|simpl; lia]; try done;
        try (intros _; by apply Hres); try lia.
      unfold main_inv. simpl. split; [done|lia].
  - (* go *)
    destruct Hmain as [-> Hlt].
    destruct (Hres ltac:(done)) as (rs & Hrs & Hrslen).
    split; [split; simpl|].
    + done.
    + unfold main_inv. simpl. rewrite length_app. simpl. split; lia.
    + intros _. eauto.
    + intros j g Hj. exists rs.
      apply lookup_app_Some in Hj as [Hj|[Hge Hj]].
      * destruct (Hslot j g Hj) as (rs0 & r & ? & ? & ?). simplify_eq. eauto.
      * apply list_lookup_singleton_Some in Hj as [Hj0 <-].
        assert (j = length (goroutines s)) as -> by lia.
        destruct (lookup_lt_is_Some_2 rs (length (goroutines s))) as [r Hr]; [lia|].
        exists r. do 2 (split; [done|]).
        rewrite (Hrest rs (length (goroutines s)) r Hrs ltac:(lia) Hr).
        unfold slot_inv. simpl. repeat split; done.
    + intros rs0 j r ? Hj Hr. rewrite length_app in Hj. simpl in Hj.
      eapply Hrest; [done| |done]. lia.
    + rewrite alive_app. simpl. unfold live. simpl. lia.
    + rewrite bind_app. unfold ran_list at 2. simpl. by rewrite app_nil_r.
    + rewrite bind_app. simpl. by rewrite app_nil_r.
    + simpl. rewrite sum_list_with_app. simpl. lia.
  - (* Wait *)
    destruct (decide _) as [H0|Hne]; [|by right].
    split; [split; simpl|simpl; lia]; try done;
      try (intros _; by apply Hres); try lia.
  - by left.
Qed.

Lemma thread_step_ok (s : State) (t : tid) :
  INV s →
  match step t s with
  | Next s' => INV s' ∧ left s' + 1 = left s
  | Blocked => True
  | Panic => False
  end.
Proof.
  intros HI. destruct t as [|k]; simpl.
  - pose proof (main_step_ok s HI). by destruct (main_step fetchList s).
  - destruct (goroutines s !! k) as [g|] eqn:Hg; [|done].
    pose proof (goroutine_step_ok s k g HI Hg).
    by destruct (goroutine_step _ _ _ _ _ _ _).
Qed.

Lemma reachable_inv (s : State) :
  reachable restorer fetchList destinationPath options w0 s → INV s.
Proof.
  induction 1 as [|s t s' _ IH Hstep]; [apply initial_inv|].
  pose proof (thread_step_ok s t IH) as Hok. rewrite Hstep in Hok. tauto.
Qed.

End RestoreListProofs.

(** ** Lists of goroutines against lists of results *)

Lemma alive_exists (gs : list Goroutine) :
  alive gs ≠ 0%Z → ∃ k g, gs !! k = Some g ∧ at_pc g ≠ WExit.
Proof.
  induction gs as [|g gs IH]; simpl; [done|]. intros Hne.
  destruct (decide (at_pc g = WExit)) as [Hx|Hx].
  - destruct IH as (k & g' & ? & ?).
    + unfold live in Hne. rewrite Hx in Hne. lia.
    + by exists (S k), g'.
  - by exists 0, g.
Qed.

Lemma bind_singletons {A B} (f : A → list B) (l : list A) :
  (∀ j a, l !! j = Some a → ∃ b, f a = [b]) →
  length (l ≫= f) = length l
  ∧ ∀ j a b, l !! j = Some a → f a = [b] → (l ≫= f) !! j = Some b.
Proof.
  induction l as [|a0 l IH]; intros Hall; [done|].
  destruct (Hall 0 a0 eq_refl) as [b0 Hb0].
  destruct IH as [IHlen IHlook]; [intros j a Hj; by apply (Hall (S j))|].
  rewrite bind_cons, Hb0. simpl. split; [by rewrite IHlen|].
  intros [|j] a b Hj Hb; simplify_eq/=; [congruence|by eapply IHlook].
Qed.

Lemma bind_imap_aligned {A B C} (f : A → list C) (h : nat → B → list C)
    (l : list A) (k : list B) :
  length l = length k →
  (∀ j a b, l !! j = Some a → k !! j = Some b → f a = h j b) →
  l ≫= f = mjoin (imap h k).
Proof.
  revert k h. induction l as [|a l IH]; intros [|b k] h Hlen Hall; simplify_eq/=.
  - done.
  - rewrite (Hall 0 a b eq_refl eq_refl). f_equal.
    apply IH; [done|]. intros j a' b' ??. by apply (Hall (S j)).
Qed.

(** ** Running to the end *)

Section RestoreListRuns.

Context `{Outside}.

Variable restorer : WALRestorer.
Variable fetchList : slice.
Variable destinationPath : string.
Variable options : slice.
Variable w0 : World.

Hypothesis fetchList_ok : slice_ok (strs w0) fetchList.
Hypothesis options_ok : slice_ok (strs w0) options.

Local Abbreviation INV := (Inv restorer fetchList destinationPath options w0).
Local Abbreviation step := (thread_step restorer fetchList destinationPath options).
Local Abbreviation exec := (run restorer fetchList destinationPath options).
Local Abbreviation reach := (reachable restorer fetchList destinationPath options w0).
Local Abbreviation left := (left_to_run fetchList).
Local Abbreviation opts := (base_options options w0).

Lemma run_reachable (sched : list tid) (s s' : State) :
  reach s → exec sched s = Some s' → reach s'.
Proof.
  revert s. induction sched as [|t sched IH]; intros s Hs Hrun; simplify_eq/=.
  - done.
  - destruct (step t s) as [s1| |] eqn:Hstep; [|done..].
    eapply IH; [|done]. by eapply reachable_step.
Qed.

(** Until the call has returned, some thread can run its next statement. *)
Lemma can_move (s : State) :
  INV s → main s ≠ MDone → ∃ t s', step t s = Next s'.
Proof.
  intros HI Hm.
  pose proof (main_step_ok restorer fetchList destinationPath options w0 s HI) as Hmain.
  destruct (main_step fetchList s) as [s'| |] eqn:Hstep.
  - by exists Main, s'.
  - destruct Hmain as [?|[Hw Hwg]]; [done|].
    rewrite (inv_wg _ _ _ _ _ _ HI), Hw in Hwg. simpl in Hwg.
    destruct (alive_exists (goroutines s)) as (k & g & Hg & Hx); [lia|].
    pose proof (goroutine_step_ok restorer fetchList destinationPath options w0
                  fetchList_ok options_ok s k g HI Hg) as Hgo.
    destruct (goroutine_step restorer fetchList destinationPath options k g s)
      as [s'| |] eqn:Hgs; [|done..].
    exists (Go k), s'. simpl. by rewrite Hg.
  - done.
Qed.

(** A schedule uses up exactly as many statements as it is long. *)
Lemma run_length (sched : list tid) (s s' : State) :
  INV s → exec sched s = Some s' → INV s' ∧ length sched + left s' = left s.
Proof.
  revert s. induction sched as [|t sched IH]; intros s HI Hrun; simplify_eq/=.
  - done.
  - pose proof (thread_step_ok restorer fetchList destinationPath options w0
                  fetchList_ok options_ok s t HI) as Hok.
    destruct (step t s) as [s1| |]; [|done..].
    destruct Hok as [HI1 Hleft].
    destruct (IH s1 HI1 Hrun) as [? ?]. split; [done|lia].
Qed.

(** From wherever it is, the call can be run to its return. *)
Lemma run_to_return (s : State) :
  INV s → ∃ sched s', exec sched s = Some s' ∧ main s' = MDone.
Proof.
  remember (left s) as m eqn:Hm. revert s Hm.
  induction m as [m IH] using lt_wf_ind. intros s -> HI.
  destruct (decide (main s = MDone)) as [Hd|Hd].
  - by exists [], s.
  - destruct (can_move s HI Hd) as (t & s1 & Hstep).
    pose proof (thread_step_ok restorer fetchList destinationPath options w0
                  fetchList_ok options_ok s t HI) as Hok.
    rewrite Hstep in Hok. destruct Hok as [HI1 Hleft].
    destruct (IH (left s1) ltac:(lia) s1 eq_refl HI1) as (sched & s' & Hrun & Hdone).
    exists (t :: sched), s'. simpl. by rewrite Hstep.
Qed.

(** The state in which a call has returned. *)
Lemma returned_slots (s : State) :
  INV s → main s = MDone →
  ∃ rs ps,
    resultList s = Some rs
    ∧ length rs = len fetchList
    ∧ length ps = len fetchList
    ∧ length (goroutines s) = len fetchList
    ∧ (∀ k g, goroutines s !! k = Some g → at_pc g = WExit)
    ∧ procs (world s) ≡ₚ procs w0 ++ ps
    ∧ contextLog s ≡ₚ mjoin (imap (log_at options w0) rs)
    ∧ ∀ j r, rs !! j = Some r →
        ∃ p, ps !! j = Some p
             ∧ slot_done restorer fetchList destinationPath options w0 j r p.
Proof.
  intros [Hstrs [Hlen Hmain] Hres Hslot Hrest Hwg Hprocs Hlog] Hm.
  rewrite Hm in *. destruct Hmain as [Hn H0]. simpl in *.
  destruct (Hres ltac:(done)) as (rs & Hrs & Hrslen).
  assert (∀ k g, goroutines s !! k = Some g → at_pc g = WExit) as Hexit.
  { intros k g Hg. eapply alive_0_exited; [|done]. lia. }
  assert (∀ j g, goroutines s !! j = Some g →
            ∃ r p, rs !! j = Some r ∧ ran_list g = [p] ∧ said g = log_at options w0 j r
                   ∧ slot_done restorer fetchList destinationPath options w0 j r p)
    as Hfinal.
  { intros j g Hg. destruct (Hslot j g Hg) as (rs' & r & ? & Hr & Hs). simplify_eq.
    destruct Hs as (_ & Hname & Hdest & _ & Hran & _ & Hsaid).
    rewrite (Hexit j g Hg) in *. simpl in *.
    destruct Hran as (p & Hp & Hcmd & Herr).
    exists r, p. unfold ran_list. rewrite Hp. by repeat split. }
  destruct (bind_singletons ran_list (goroutines s)) as [Hpslen Hps].
  { intros j g Hg. destruct (Hfinal j g Hg) as (_ & p & _ & ? & _). eauto. }
  exists rs, (goroutines s ≫= ran_list).
  split_and!; try done; try lia.
  - rewrite Hlog. erewrite bind_imap_aligned; [done|lia|].
    intros j g r Hg Hr. destruct (Hfinal j g Hg) as (r' & _ & ? & _ & ? & _).
    by simplify_eq.
  - intros j r Hr.
    destruct (lookup_lt_is_Some_2 (goroutines s) j) as [g Hg].
    { apply lookup_lt_Some in Hr. lia. }
    destruct (Hfinal j g Hg) as (r' & p & ? & Hp & _ & ?). simplify_eq.
    exists p. split; [by eapply Hps|done].
Qed.

End RestoreListRuns.

(** ** The spool lookup and the fetch invoker *)

Section RestoreClaims.

Context `{Outside}.

Variable restorer : WALRestorer.

(** C4. [RestoreFromSpool] always returns, with one of three outcomes
    fixed by what the spool's [MoveOut] reported: (true, nil) when it
    reported no error (the entry was there and has been moved),
    (false, nil) when it reported the sentinel for a missing entry, and
    (false, err) for any other error [err].  Apart from what [MoveOut]
    did to the file system the world is as before: in particular no
    subprocess has been executed, so the fetch tool was not invoked. *)
Theorem RestoreFromSpool_outcomes (walName destinationPath : string) (w : World) :
  let moved := spool_MoveOut (spool restorer) walName destinationPath (ext w) in
  ∃ wasInSpool err w',
    RestoreFromSpool restorer walName destinationPath w = Some ((wasInSpool, err), w')
    ∧ procs w' = procs w ∧ strs w' = strs w ∧ ext w' = moved.2
    ∧ (moved.1 = None → wasInSpool = true ∧ err = None)
    ∧ (moved.1 = Some spool_ErrorNonExistentFile → wasInSpool = false ∧ err = None)
    ∧ (∀ e, moved.1 = Some e → e ≠ spool_ErrorNonExistentFile →
            wasInSpool = false ∧ err = Some e)
    ∧ (wasInSpool = true → err = None).
Proof.
  intros moved. unfold RestoreFromSpool, bind, with_ext, ret. subst moved.
  destruct (spool_MoveOut _ _ _ _) as [[e|] x]; simpl.
  - destruct (decide (e = spool_ErrorNonExistentFile)) as [->|Hne].
    + exists false, None. eexists. split; [done|]. simpl.
      split_and!; try done; intros; by simplify_eq.
    + exists false, (Some e). eexists. split; [done|]. simpl.
      split_and!; try done; intros; by simplify_eq.
  - exists true, None. eexists. split; [done|]. simpl. by split_and!.
Qed.

(** C6. [Restore] always returns and executes exactly one subprocess:
    the list of executed processes grows by one entry, whose command is
    the fetch tool, with the argument vector made of the tool's name,
    the base options in order, the segment name and the destination
    path, and with the restorer's environment. *)
Theorem Restore_invokes_fetch_tool_once (walName destinationPath : string)
    (baseOptions : slice) (w : World) :
  slice_ok (strs w) baseOptions →
  ∃ err w' p,
    Restore restorer walName destinationPath baseOptions w = Some (err, w')
    ∧ procs w' = procs w ++ [p]
    ∧ Args (proc_cmd p) =
        BarmanCloudWalRestore ::
          elems (strs w) baseOptions ++ [walName; destinationPath]
    ∧ Env (proc_cmd p) = env restorer.
Proof.
  intros Hok. rewrite Restore_run by done. cbv zeta.
  by eexists _, _, (mkProc _ _).
Qed.

(** C7. [Restore] returns nil exactly when the one subprocess it
    executed exited with status 0.  Otherwise (another exit status, or
    a process that could not be started) it returns an error that wraps
    the error of the execution and whose message names the fetch tool
    before that error's own message.  One process is executed whatever
    the outcome: nothing is retried. *)
Theorem Restore_error_wraps_failure (walName destinationPath : string)
    (baseOptions : slice) (w : World) :
  slice_ok (strs w) baseOptions →
  ∃ err w' p,
    Restore restorer walName destinationPath baseOptions w = Some (err, w')
    ∧ procs w' = procs w ++ [p]
    ∧ (err = None ↔ proc_state p = Exited 0)
    ∧ (∀ cause, run_error (proc_state p) = Some cause →
         ∃ e, err = Some e
              ∧ Unwrap e = Some cause
              ∧ Error e = "unexpected failure invoking " +:+ BarmanCloudWalRestore
                            +:+ ": " +:+ Error cause)
    ∧ (proc_state p ≠ Exited 0 → ∃ cause, run_error (proc_state p) = Some cause).
Proof.
  intros Hok. rewrite Restore_run by done. cbv zeta.
  set (c := fetch_cmd _ _ _ _). destruct (os_run c (ext w)) as [st e]. simpl.
  eexists _, _, (mkProc c st). split; [done|]. split; [done|]. simpl.
  unfold restore_err. split_and!.
  - destruct st as [code|cause]; simpl; [|by split].
    destruct (decide (code = 0%Z)) as [->|Hne]; simpl; [done|].
    split; [done|]. intros ?. by simplify_eq.
  - intros cause ->. simpl. eauto.
  - destruct st as [code|cause]; simpl; [|eauto].
    destruct (decide (code = 0%Z)) as [->|Hne]; [done|eauto].
Qed.

End RestoreClaims.

(** ** What the log of a call holds *)

Lemma elem_of_log_of (e : LogEntry) (j : nat) (r : Result) (o : list string) :
  e ∈ log_of j r o ↔
    (Err r = None ∧ e = info_entry r (elapsed r))
    ∨ (j = 0 ∧ is_Some (Err r) ∧ e = warning_entry r o (elapsed r)).
Proof.
  unfold log_of, elapsed. destruct (Err r) as [err|] eqn:Herr.
  - destruct (decide (j = 0)) as [->|Hj].
    + rewrite list_elem_of_singleton. split.
      * intros ->. right. eauto.
      * by intros [[? _]|(_ & _ & ->)].
    + split; [by intros ?%elem_of_nil|].
      by intros [[? _]|(? & _ & _)].
  - rewrite list_elem_of_singleton. split.
    + intros ->. by left.
    + intros [[_ ->]|(_ & Hs & _)]; [done|]. by destruct Hs.
Qed.

Lemma length_log_of (j : nat) (r : Result) (o : list string) :
  length (log_of j r o) =
    if decide (Err r = None) then 1
    else if decide (j = 0) then 1 else 0.
Proof.
  unfold log_of. destruct (Err r); simpl; [|done].
  by destruct (decide (j = 0)).
Qed.

Lemma length_join_imap_succeeded (h : nat → Result → list LogEntry)
    (rs : list Result) :
  (∀ j r, length (h j r) = if decide (Err r = None) then 1 else 0) →
  length (mjoin (imap h rs)) = length (succeeded rs).
Proof.
  revert h. induction rs as [|r rs IH]; intros h Hh; [done|].
  rewrite imap_cons. simpl. rewrite length_app, Hh, IH by (intros; apply Hh).
  unfold succeeded. rewrite filter_cons.
  destruct (decide (Err r = None)); simpl; lia.
Qed.

Lemma length_log (o : list string) (rs : list Result) :
  length (mjoin (imap (λ j r, log_of j r o) rs)) =
    length (succeeded rs)
    + match rs !! 0 with
      | Some r => if decide (Err r = None) then 0 else 1
      | None => 0
      end.
Proof.
  destruct rs as [|r rs]; [done|].
  rewrite imap_cons. simpl. rewrite length_app, length_log_of.
  rewrite length_join_imap_succeeded.
  - unfold succeeded. rewrite filter_cons.
    destruct (decide (Err r = None)); simpl; lia.
  - intros j r'. simpl. rewrite length_log_of.
    destruct (decide (Err r' = None)); [done|].
    by destruct (decide (S j = 0)).
Qed.

(** ** RestoreList *)

Section RestoreListClaims.

Context `{Outside}.

Variable restorer : WALRestorer.
Variable fetchList : slice.
Variable destinationPath : string.
Variable options : slice.
Variable w0 : World.

Local Abbreviation step := (thread_step restorer fetchList destinationPath options).
Local Abbreviation exec := (run restorer fetchList destinationPath options).
Local Abbreviation reach := (reachable restorer fetchList destinationPath options w0).
Local Abbreviation opts := (base_options options w0).
Local Abbreviation names := (batch fetchList w0).

Lemma returned_MDone (s : State) (res : option (list Result)) :
  returned s = Some res → main s = MDone ∧ res = resultList s.
Proof. unfold returned. destruct (main s); naive_solver. Qed.

Lemma name_at_lookup (j : nat) (x : string) :
  names !! j = Some x → name_at fetchList w0 j = x.
Proof. unfold name_at. by intros ->. Qed.

(** C1. Whatever the schedule, no statement of the call panics and the
    call can always be run on to its return, so a fetch that fails
    stops neither the other goroutines nor the call.  What is returned
    is the list of results and nothing else: N results for a batch of
    N, next to the N subprocesses [ps] the call executed (one per
    index, in some order of completion), where the [Err] of the result
    at index [j] is the error [Restore] makes of the exit of the
    subprocess of index [j], and of that one alone.  A failure at an
    index is therefore recorded in the slot of that index only. *)
Theorem RestoreList_failure_stays_in_its_slot :
  slice_ok (strs w0) fetchList → slice_ok (strs w0) options →
  ∀ s, reach s →
    (∀ t, step t s ≠ Panic)
    ∧ (∃ sched s', exec sched s = Some s' ∧ is_Some (returned s'))
    ∧ ∀ res, returned s = Some res →
        ∃ rs ps,
          res = Some rs
          ∧ length rs = len fetchList ∧ length ps = len fetchList
          ∧ procs (world s) ≡ₚ procs w0 ++ ps
          ∧ ∀ j r, rs !! j = Some r →
              ∃ p, ps !! j = Some p
                   ∧ proc_cmd p = cmd_at restorer fetchList destinationPath options w0 j
                   ∧ Err r = restore_err (proc_state p).
Proof.
  intros Hf Ho s Hs.
  pose proof (reachable_inv _ _ _ _ _ Hf Ho s Hs) as HI.
  split_and!.
  - intros t Hp. pose proof (thread_step_ok _ _ _ _ _ Hf Ho s t HI) as Hok.
    by rewrite Hp in Hok.
  - destruct (run_to_return _ _ _ _ _ Hf Ho s HI) as (sched & s' & Hrun & Hd).
    exists sched, s'. split; [done|]. unfold returned. rewrite Hd. eauto.
  - intros res [Hd ->]%returned_MDone.
    destruct (returned_slots _ _ _ _ _ s HI Hd)
      as (rs & ps & Hrs & Hlen & Hpslen & _ & _ & Hprocs & _ & Hslots).
    exists rs, ps. split_and!; try done.
    intros j r Hr. destruct (Hslots j r Hr) as (p & Hp & _ & _ & ? & ?). eauto.
Qed.

(** C2. Whatever the schedule, no statement of the call panics and the
    call can always be run on to its return, so the fetches are
    dispatched.  In what it returns, the result at index 0 has the
    destination path the caller passed and the result at every other
    index has the spool's file name for the segment of that index; and
    one subprocess has been executed for every index, which was given the
    segment name and this very destination as its last two arguments,
    after the options. *)
Theorem RestoreList_destinations :
  slice_ok (strs w0) fetchList → slice_ok (strs w0) options →
  ∀ s, reach s →
    (∀ t, step t s ≠ Panic)
    ∧ (∃ sched s', exec sched s = Some s' ∧ is_Some (returned s'))
    ∧ ∀ res, returned s = Some res →
        ∃ rs ps,
          res = Some rs
          ∧ length rs = len fetchList ∧ length ps = len fetchList
          ∧ procs (world s) ≡ₚ procs w0 ++ ps
          ∧ ∀ j r, rs !! j = Some r →
              ∃ walName p,
                names !! j = Some walName
                ∧ DestinationPath r =
                    (if decide (j = 0) then destinationPath
                     else spool_FileName (spool restorer) walName)
                ∧ ps !! j = Some p
                ∧ Args (proc_cmd p) =
                    BarmanCloudWalRestore :: opts ++ [walName; DestinationPath r].
Proof.
  intros Hf Ho s Hs.
  pose proof (reachable_inv _ _ _ _ _ Hf Ho s Hs) as HI.
  split.
  { intros t Hp. pose proof (thread_step_ok _ _ _ _ _ Hf Ho s t HI) as Hok.
    by rewrite Hp in Hok. }
  split.
  { destruct (run_to_return _ _ _ _ _ Hf Ho s HI) as (sched & s' & Hrun & Hd).
    exists sched, s'. split; [done|]. unfold returned. rewrite Hd. eauto. }
  intros res [Hd ->]%returned_MDone.
  destruct (returned_slots _ _ _ _ _ s HI Hd)
    as (rs & ps & Hrs & Hlen & Hpslen & _ & _ & Hprocs & _ & Hslots).
  exists rs, ps. split_and!; try done.
  intros j r Hr. destruct (Hslots j r Hr) as (p & Hp & _ & Hdest & Hcmd & _).
  destruct (lookup_lt_is_Some_2 names j) as [walName Hname].
  { unfold batch. rewrite length_elems by done.
    apply lookup_lt_Some in Hr. lia. }
  exists walName, p. split_and!; try done.
  - rewrite Hdest. unfold dest_at. by rewrite (name_at_lookup _ _ Hname).
  - rewrite Hcmd, Hdest. unfold cmd_at, fetch_cmd. simpl.
    by rewrite (name_at_lookup _ _ Hname).
Qed.

(** C3. Every schedule of a call on a batch of N segments runs at most
    9 N + 3 statements, and from wherever it stands the call can be run
    to its return.  When it has returned, it returns N results whose
    names are the batch, position by position, whatever the order in
    which the goroutines ran; and by then all N goroutines it started
    have run to their end. *)
Theorem RestoreList_results_aligned :
  slice_ok (strs w0) fetchList → slice_ok (strs w0) options →
  (∀ sched s,
      RestoreList restorer fetchList destinationPath options sched w0 = Some s →
      length sched ≤ 9 * len fetchList + 3)
  ∧ ∀ s, reach s →
      (∃ sched s', exec sched s = Some s' ∧ is_Some (returned s'))
      ∧ ∀ res, returned s = Some res →
          ∃ rs,
            res = Some rs
            ∧ length rs = len fetchList
            ∧ WalName <$> rs = names
            ∧ length (goroutines s) = len fetchList
            ∧ Forall (λ g, at_pc g = WExit) (goroutines s).
Proof.
  intros Hf Ho. split.
  - intros sched s Hrun.
    destruct (run_length _ _ _ _ _ Hf Ho sched _ s (initial_inv _ _ _ _ _) Hrun)
      as [_ Hlen].
    unfold left_to_run in Hlen. simpl in Hlen. lia.
  - intros s Hs. pose proof (reachable_inv _ _ _ _ _ Hf Ho s Hs) as HI. split.
    + destruct (run_to_return _ _ _ _ _ Hf Ho s HI) as (sched & s' & Hrun & Hd).
      exists sched, s'. split; [done|]. unfold returned. rewrite Hd. eauto.
    + intros res [Hd ->]%returned_MDone.
      destruct (returned_slots _ _ _ _ _ s HI Hd)
        as (rs & ps & Hrs & Hlen & Hpslen & Hgs & Hexit & _ & _ & Hslots).
      exists rs. split_and!; try done.
      * apply list_eq. intros j. rewrite list_lookup_fmap.
        destruct (rs !! j) as [r|] eqn:Hr; simpl.
        -- destruct (Hslots j r Hr) as (p & _ & Hname & _).
           rewrite Hname. unfold name_at.
           destruct (names !! j) as [x|] eqn:Hx; [done|].
           apply lookup_ge_None in Hx. apply lookup_lt_Some in Hr.
           unfold batch in Hx. rewrite length_elems in Hx by done. lia.
        -- symmetry. apply lookup_ge_None. apply lookup_ge_None in Hr.
           unfold batch. rewrite length_elems by done. lia.
      * by apply Forall_lookup.
Qed.

(** What the calling code has written through [contextLog] when the call
    has returned: one informational entry for every result without
    error, one warning entry if the result at index 0 has an error, and
    nothing else. *)
Lemma contextLog_at_return :
  slice_ok (strs w0) fetchList → slice_ok (strs w0) options →
  ∀ s res, reach s → returned s = Some res →
    ∃ rs,
      res = Some rs
      ∧ (∀ e, e ∈ contextLog s ↔
           ∃ j r, rs !! j = Some r
                  ∧ ((Err r = None ∧ e = info_entry r (elapsed r))
                     ∨ (j = 0 ∧ is_Some (Err r)
                        ∧ e = warning_entry r opts (elapsed r))))
      ∧ length (contextLog s) =
          length (succeeded rs)
          + match rs !! 0 with
            | Some r => if decide (Err r = None) then 0 else 1
            | None => 0
            end
      ∧ ((∃ e, e ∈ contextLog s ∧ level e = WarningLevel) ↔
         (∃ r, rs !! 0 = Some r ∧ is_Some (Err r)))
      ∧ (∀ e, e ∈ contextLog s → level e = WarningLevel →
           ∃ r, rs !! 0 = Some r
                ∧ names !! 0 = Some (WalName r)
                ∧ keysAndValues e =
                    [("walName", VString (WalName r));
                     ("options", VStrings opts);
                     ("startTime", VTime (StartTime r));
                     ("endTime", VTime (EndTime r));
                     ("elapsedWalTime", VDuration (elapsed r));
                     ("error", VError (Err r))]).
Proof.
  intros Hf Ho s res Hs [Hd ->]%returned_MDone.
  pose proof (reachable_inv _ _ _ _ _ Hf Ho s Hs) as HI.
  destruct (returned_slots _ _ _ _ _ s HI Hd)
    as (rs & ps & Hrs & Hlen & _ & _ & _ & _ & Hlog & Hslots).
  exists rs. split; [done|].
  assert (∀ e, e ∈ contextLog s ↔
            ∃ j r, rs !! j = Some r
                   ∧ ((Err r = None ∧ e = info_entry r (elapsed r))
                      ∨ (j = 0 ∧ is_Some (Err r)
                         ∧ e = warning_entry r opts (elapsed r)))) as Hin.
  { intros e. rewrite Hlog, list_elem_of_join. split.
    - intros (l & He & (j & r & -> & Hr)%elem_of_lookup_imap).
      exists j, r. split; [done|]. by apply elem_of_log_of.
    - intros (j & r & Hr & He). exists (log_at options w0 j r). split.
      + by apply elem_of_log_of.
      + by apply elem_of_lookup_imap_2. }
  split_and!.
  - done.
  - rewrite Hlog. apply length_log.
  - split.
    + intros (e & (j & r & Hr & [[_ ->]|(-> & ? & _)])%Hin & Hlevel); [done|eauto].
    + intros (r & Hr & Herr). exists (warning_entry r opts (elapsed r)).
      split; [|done]. apply Hin. exists 0, r. eauto.
  - intros e (j & r & Hr & [[_ ->]|(-> & ? & ->)])%Hin Hlevel; [done|].
    exists r. split_and!; try done.
    destruct (Hslots 0 r Hr) as (p & _ & Hname & _). rewrite Hname.
    unfold name_at. destruct (names !! 0) as [x|] eqn:Hx; [done|].
    apply lookup_ge_None in Hx. apply lookup_lt_Some in Hr.
    unfold batch in Hx. rewrite length_elems in Hx by done. lia.
Qed.

(** C9. For an empty batch three statements of the calling thread
    return an empty, non-nil list of results.  No goroutine ever exists,
    the world stays as it was at the call (no subprocess is executed),
    and nothing is written to the log. *)
Theorem RestoreList_empty_batch :
  len fetchList = 0 →
  (∃ s, RestoreList restorer fetchList destinationPath options
          [Main; Main; Main] w0 = Some s
        ∧ returned s = Some (Some []))
  ∧ ∀ s, reach s →
      world s = w0 ∧ contextLog s = [] ∧ goroutines s = []
      ∧ ∀ res, returned s = Some res → res = Some [].
Proof.
  intros H0. split.
  - unfold RestoreList. simpl. unfold main_step. simpl. rewrite H0. simpl.
    eexists. split; [done|]. done.
  - intros s Hs.
    assert (world s = w0 ∧ contextLog s = [] ∧ goroutines s = []
            ∧ waitGroup s = 0%Z
            ∧ (main s = MMake
               ∨ (resultList s = Some []
                  ∧ (main s = MAdd 0 ∨ main s = MWait ∨ main s = MDone))))
      as (Hw & Hl & Hg & Hwg & Hm).
    { induction Hs as [|s t s' _ IH Hstep]; [by split_and!; try left|].
      destruct IH as (Hw & Hl & Hg & Hwg & Hm).
      destruct t as [|k]; simpl in Hstep; [|by rewrite Hg in Hstep].
      unfold main_step in Hstep. rewrite H0 in Hstep.
      destruct Hm as [Hm|[Hrs [Hm|[Hm|Hm]]]]; rewrite Hm in Hstep;
        simpl in Hstep; rewrite ?Hwg in Hstep; simpl in Hstep;
        simplify_eq; simpl; split_and!; try done; right; eauto. }
    split_and!; try done.
    intros res [Hd ->]%returned_MDone.
    destruct Hm as [Hm|[Hrs _]]; [by rewrite Hm in Hd|done].
Qed.

(** C10. [Restore] never writes to an array that existed when it was
    called: it allocates a new one, puts the base options and the two
    positional arguments there, and leaves every other array, the one
    behind the caller's options included, as it was.  The same holds
    for every state of a call of [RestoreList], whose goroutines all
    share the options: the store has only gained arrays and the
    options read as they did at the call. *)
Theorem Restore_keeps_baseOptions (walName dest : string) :
  slice_ok (strs w0) fetchList → slice_ok (strs w0) options →
  (∃ err w' l,
      Restore restorer walName dest options w0 = Some (err, w')
      ∧ strs w0 !! l = None
      ∧ strs w' = <[l := opts ++ [walName; dest]]> (strs w0)
      ∧ strs w0 ⊆ strs w'
      ∧ elems (strs w') options = opts)
  ∧ ∀ s, reach s →
      strs w0 ⊆ strs (world s)
      ∧ elems (strs (world s)) options = opts.
Proof.
  intros Hf Ho. split.
  - rewrite Restore_run by done. cbv zeta.
    assert (strs w0 !! fresh (dom (strs w0)) = None) as Hl
      by apply not_elem_of_dom, is_fresh.
    eexists _, _, (fresh (dom (strs w0))). split; [done|]. simpl.
    split_and!; try done.
    + by apply insert_subseteq.
    + apply elems_subseteq; [done|]. by apply insert_subseteq.
  - intros s Hs.
    pose proof (reachable_inv _ _ _ _ _ Hf Ho s Hs) as HI.
    pose proof (inv_strs _ _ _ _ _ _ HI) as Hsub.
    split; [done|]. by apply elems_subseteq.
Qed.

End RestoreListClaims.

(** ** The statements at work in the small world *)

Section Demonstration.

Local Existing Instance Demo.outside.

Import Demo.

(** The batch A, B, C with B missing from the archive, goroutine after
    goroutine: A and C succeed, B carries its own error. *)
Example RestoreList_in_order :
  option_map resultList (RestoreList restorer fetchList dest options (in_order 3) w0) =
  Some (Some
    [mkResult A dest None 100%Z 106%Z;
     mkResult B "/spool/00000001000000000000004B"
       (Some (wrapError
                "unexpected failure invoking barman-cloud-wal-restore: exit status 1"
                (ExitError 1))) 107%Z 111%Z;
     mkResult C "/spool/00000001000000000000004C" None 112%Z 118%Z]).
Proof. vm_compute. reflexivity. Qed.

(** The same call with the goroutines run last to first: the results
    stand at the same positions. *)
Example RestoreList_reversed :
  match RestoreList restorer fetchList dest options (reversed 3) w0 with
  | Some s => option_map (map WalName) (resultList s)
  | None => None
  end = Some [A; B; C].
Proof. vm_compute. reflexivity. Qed.

(** The spare element behind the caller's options is still there after
    the call, and the log has the two successes only. *)
Example RestoreList_leaves_options :
  match RestoreList restorer fetchList dest options (in_order 3) w0 with
  | Some s => Some (strs (world s) !! 2%positive, length (contextLog s))
  | None => None
  end = Some (Some ["--endpoint"; "s3"; "spare"], 2).
Proof. vm_compute. reflexivity. Qed.

(** When the demanded segment itself is missing, the log has the warning. *)
Example RestoreList_demanded_missing :
  match RestoreList restorer (Slice (Some 1%positive) 1 1 2) dest options
          (in_order 1) w0 with
  | Some s => Some (map level (contextLog s))
  | None => None
  end = Some [WarningLevel].
Proof. vm_compute. reflexivity. Qed.

(** A spool that holds B: the first lookup moves it out, the second
    finds nothing, and neither runs a subprocess. *)
Example RestoreFromSpool_hit_then_miss :
  let w := mkWorld h0 [] (mkSim 100%Z [] {[ FileName "/spool" B := "wal" ]}) in
  match RestoreFromSpool restorer B dest w with
  | Some (r1, w1) =>
      Some (r1, option_map fst (RestoreFromSpool restorer B dest w1),
            disk (ext w1) !! dest, procs w1)
  | None => None
  end = Some ((true, None), Some (false, None), Some "wal", []).
Proof. vm_compute. reflexivity. Qed.

(** A file-system fault in the spool is neither a hit nor a miss. *)
Example RestoreFromSpool_fault :
  let w := mkWorld h0 [] (mkSim 100%Z [] {[ FileName "/spool" B := "wal" ]}) in
  option_map fst (RestoreFromSpool restorer B "" w) =
  Some (false, Some (errorString "open : no such file or directory")).
Proof. vm_compute. reflexivity. Qed.

(** What the copy in [Restore] is for: appending to the caller's slice
    itself, which has room for one more element, writes into the
    caller's array. *)
Example append_in_place_overwrites :
  (append options [A] h0).2 !! 2%positive = Some ["--endpoint"; "s3"; A].
Proof. vm_compute. reflexivity. Qed.

Lemma RestoreList_failure_stays_in_its_slot_witness :
  slice_ok (strs w0) fetchList ∧ slice_ok (strs w0) options ∧
  ∀ s, reachable restorer fetchList dest options w0 s →
    (∀ t, thread_step restorer fetchList dest options t s ≠ Panic)
    ∧ (∃ sched s', run restorer fetchList dest options sched s = Some s'
                   ∧ is_Some (returned s'))
    ∧ ∀ res, returned s = Some res →
        ∃ rs ps,
          res = Some rs
          ∧ length rs = len fetchList ∧ length ps = len fetchList
          ∧ procs (world s) ≡ₚ procs w0 ++ ps
          ∧ ∀ j r, rs !! j = Some r →
              ∃ p, ps !! j = Some p
                   ∧ proc_cmd p = cmd_at restorer fetchList dest options w0 j
                   ∧ Err r = restore_err (proc_state p).
Proof.
  split; [split; vm_compute; lia|]. split; [split; vm_compute; lia|].
  apply (RestoreList_failure_stays_in_its_slot restorer fetchList dest options w0); split; vm_compute; lia.
Defined.

Lemma RestoreList_destinations_witness :
  slice_ok (strs w0) fetchList ∧ slice_ok (strs w0) options ∧
  ∀ s, reachable restorer fetchList dest options w0 s →
    (∀ t, thread_step restorer fetchList dest options t s ≠ Panic)
    ∧ (∃ sched s', run restorer fetchList dest options sched s = Some s'
                   ∧ is_Some (returned s'))
    ∧ ∀ res, returned s = Some res →
        ∃ rs ps,
          res = Some rs
          ∧ length rs = len fetchList ∧ length ps = len fetchList
          ∧ procs (world s) ≡ₚ procs w0 ++ ps
          ∧ ∀ j r, rs !! j = Some r →
              ∃ walName p,
                batch fetchList w0 !! j = Some walName
                ∧ DestinationPath r =
                    (if decide (j = 0) then dest
                     else spool_FileName (spool restorer) walName)
                ∧ ps !! j = Some p
                ∧ Args (proc_cmd p) =
                    BarmanCloudWalRestore ::
                      base_options options w0 ++ [walName; DestinationPath r].
Proof.
  split; [split; vm_compute; lia|]. split; [split; vm_compute; lia|].
  apply (RestoreList_destinations restorer fetchList dest options w0);
    split; vm_compute; lia.
Defined.

Lemma RestoreList_results_aligned_witness :
  slice_ok (strs w0) fetchList ∧ slice_ok (strs w0) options ∧
  (∀ sched s,
      RestoreList restorer fetchList dest options sched w0 = Some s →
      length sched ≤ 9 * len fetchList + 3)
  ∧ ∀ s, reachable restorer fetchList dest options w0 s →
      (∃ sched s', run restorer fetchList dest options sched s = Some s'
                   ∧ is_Some (returned s'))
      ∧ ∀ res, returned s = Some res →
          ∃ rs,
            res = Some rs
            ∧ length rs = len fetchList
            ∧ WalName <$> rs = batch fetchList w0
            ∧ length (goroutines s) = len fetchList
            ∧ Forall (λ g, at_pc g = WExit) (goroutines s).
Proof.
  split; [split; vm_compute; lia|]. split; [split; vm_compute; lia|].
  apply (RestoreList_results_aligned restorer fetchList dest options w0); split; vm_compute; lia.
Defined.

Lemma RestoreList_empty_batch_witness :
  len nil_slice = 0 ∧
  (∃ s, RestoreList restorer nil_slice dest options [Main; Main; Main] w0 = Some s
        ∧ returned s = Some (Some []))
  ∧ ∀ s, reachable restorer nil_slice dest options w0 s →
      world s = w0 ∧ contextLog s = [] ∧ goroutines s = []
      ∧ ∀ res, returned s = Some res → res = Some [].
Proof.
  split; [reflexivity|].
  apply (RestoreList_empty_batch restorer nil_slice dest options w0). reflexivity.
Defined.

Lemma Restore_keeps_baseOptions_witness :
  slice_ok (strs w0) fetchList ∧ slice_ok (strs w0) options ∧
  (∃ err w' l,
      Restore restorer A dest options w0 = Some (err, w')
      ∧ strs w0 !! l = None
      ∧ strs w' = <[l := base_options options w0 ++ [A; dest]]> (strs w0)
      ∧ strs w0 ⊆ strs w'
      ∧ elems (strs w') options = base_options options w0)
  ∧ ∀ s, reachable restorer fetchList dest options w0 s →
      strs w0 ⊆ strs (world s)
      ∧ elems (strs (world s)) options = base_options options w0.
Proof.
  split; [split; vm_compute; lia|]. split; [split; vm_compute; lia|].
  apply (Restore_keeps_baseOptions restorer fetchList dest options w0 A dest); split; vm_compute; lia.
Defined.

Lemma Restore_invokes_fetch_tool_once_witness :
  slice_ok (strs w0) options ∧
  ∃ err w' p,
    Restore restorer A dest options w0 = Some (err, w')
    ∧ procs w' = procs w0 ++ [p]
    ∧ Args (proc_cmd p) =
        BarmanCloudWalRestore :: elems (strs w0) options ++ [A; dest]
    ∧ Env (proc_cmd p) = env restorer.
Proof.
  split; [split; vm_compute; lia|].
  apply (Restore_invokes_fetch_tool_once restorer A dest options w0). split; vm_compute; lia.
Defined.

Lemma Restore_error_wraps_failure_witness :
  slice_ok (strs w0) options ∧
  ∃ err w' p,
    Restore restorer B dest options w0 = Some (err, w')
    ∧ procs w' = procs w0 ++ [p]
    ∧ (err = None ↔ proc_state p = Exited 0)
    ∧ (∀ cause, run_error (proc_state p) = Some cause →
         ∃ e, err = Some e
              ∧ Unwrap e = Some cause
              ∧ Error e = "unexpected failure invoking " +:+ BarmanCloudWalRestore
                            +:+ ": " +:+ Error cause)
    ∧ (proc_state p ≠ Exited 0 → ∃ cause, run_error (proc_state p) = Some cause).
Proof.
  split; [split; vm_compute; lia|].
  apply (Restore_error_wraps_failure restorer B dest options w0). split; vm_compute; lia.
Defined.

End Demonstration.

(** ** Statement by statement *)

Section RestoreListSteps.

Context `{Outside}.

Variable restorer : WALRestorer.
Variable fetchList : slice.
Variable destinationPath : string.
Variable options : slice.
Variable w0 : World.

Hypothesis fetchList_ok : slice_ok (strs w0) fetchList.
Hypothesis options_ok : slice_ok (strs w0) options.

Local Abbreviation INV := (Inv restorer fetchList destinationPath options w0).
Local Abbreviation step := (thread_step restorer fetchList destinationPath options).
Local Abbreviation exec := (run restorer fetchList destinationPath options).
Local Abbreviation reach := (reachable restorer fetchList destinationPath options w0).
Local Abbreviation EFFECT := (step_effect restorer fetchList destinationPath options w0).

(** What a statement of goroutine [k] changes: its own record, its own
    slot, and the parts of the state [step_effect] names. *)
Lemma goroutine_step_shape (s s' : State) (k : nat) (g : Goroutine) :
  INV s → goroutines s !! k = Some g →
  goroutine_step restorer fetchList destinationPath options k g s = Next s' →
  ∃ rs r r' g',
    resultList s = Some rs ∧ rs !! k = Some r
    ∧ resultList s' = Some (<[k:=r']> rs)
    ∧ goroutines s' = <[k:=g']> (goroutines s)
    ∧ main s' = main s
    ∧ rank (at_pc g') = S (rank (at_pc g))
    ∧ EFFECT k g g' r r' s s'.
Proof.
  intros HI Hg Hstep.
  destruct (inv_slot _ _ _ _ _ _ HI k g Hg) as (rs & r & Hrs & Hr & Hslot).
  pose proof HI as [Hstrs [Hlen _] _ _ _ Hwg _ _].
  assert (k < len fetchList) as Hk by (apply lookup_lt_Some in Hg; lia).
  pose proof (index_fetchList _ _ fetchList_ok _ k Hstrs Hk) as Hix.
  pose proof (elems_subseteq _ _ _ options_ok Hstrs) as Hopts.
  destruct Hslot as (Hi & Hname & Hdest & _ & _ & _ & _).
  destruct g as [i pc rn sd]; simpl in *; subst i.
  exists rs, r.
  unfold goroutine_step, on_result in Hstep; simpl in Hstep.
  unfold step_effect; simpl.
  destruct pc; simpl in *; rewrite ?Hrs, ?Hr, ?Hix in Hstep; simpl in Hstep.
  - simplify_eq. eexists _, _. simpl. rewrite ?app_nil_r. by split_and!.
  - simplify_eq. eexists _, _. simpl. rewrite ?app_nil_r. split_and!; try done.
    unfold dest_at. by rewrite Hname.
  - destruct (time_Now (ext (world s))) as [t e]. simplify_eq.
    eexists _, _. simpl. rewrite ?app_nil_r. by split_and!.
  - rewrite Restore_run in Hstep by by eapply slice_ok_subseteq.
    simpl in Hstep. rewrite last_snoc, Hopts, Hdest in Hstep.
    simplify_eq. eexists _, _. simpl. rewrite ?app_nil_r. by split_and!.
  - destruct (time_Now (ext (world s))) as [t e]. simplify_eq.
    eexists _, _. simpl. rewrite ?app_nil_r. by split_and!.
  - rewrite Hopts in Hstep. simplify_eq. eexists r, _. simpl.
    rewrite list_insert_id by done. by split_and!.
  - unfold wg_Add in Hstep. destruct (decide _); [done|]. simplify_eq.
    eexists r, _. simpl. rewrite list_insert_id by done.
    split_and!; try done; lia.
  - done.
Qed.

(** What a statement of the calling thread changes: it allocates the
    results, or starts one more goroutine, or only moves on. *)
Lemma main_step_shape (s s' : State) :
  main_step fetchList s = Next s' →
  world s' = world s ∧ contextLog s' = contextLog s
  ∧ (resultList s' = resultList s
     ∨ (main s = MMake
        ∧ resultList s' = Some (replicate (len fetchList) zeroResult)))
  ∧ (goroutines s' = goroutines s
     ∨ (∃ idx, main s = MGo idx
               ∧ goroutines s' = goroutines s ++ [mkGoroutine idx WName None []])).
Proof.
  unfold main_step. intros Hstep.
  destruct (main s) as [|idx|idx| |] eqn:Hm.
  - simplify_eq. simpl. split_and!; eauto.
  - destruct (decide _).
    + unfold wg_Add in Hstep. destruct (decide _); [done|].
      simplify_eq. simpl. split_and!; eauto.
    + simplify_eq. simpl. split_and!; eauto.
  - simplify_eq. simpl. split_and!; eauto.
  - destruct (decide _); [|done]. simplify_eq. simpl. split_and!; eauto.
  - done.
Qed.

End RestoreListSteps.

(** ** More on the constructor, the spool lookup and the fetch invoker *)

Lemma wrapError_neq (msg : string) (e : error) : wrapError msg e ≠ e.
Proof.
  revert msg. induction e as [s|code|msg' e IH]; intros msg Heq; try done.
  injection Heq as _ Heq. by eapply IH.
Qed.

Section MoreOnRestore.

Context `{Outside}.

(** X1. New returns a restorer or an error, never both and never neither.
    It returns the restorer exactly when [spool.New] reported no error,
    and then the restorer holds the cluster and the environment it was
    given and the spool [spool.New] made.  Otherwise the error wraps the
    one of [spool.New] behind the words "while creating spool directory",
    and one informational entry names the directory.  No subprocess is
    executed either way. *)
Theorem New_restorer_or_error
    (spool_New : string → Ext → (WALSpool * option error) * Ext)
    (cluster0 : Cluster) (env0 : list string) (spoolDirectory : string)
    (w : World) :
  let made := spool_New spoolDirectory (ext w) in
  ∃ archiver err entries w',
    New spool_New cluster0 env0 spoolDirectory w = Some ((archiver, err, entries), w')
    ∧ procs w' = procs w ∧ strs w' = strs w ∧ ext w' = made.2
    ∧ (is_Some archiver ↔ err = None)
    ∧ (is_Some archiver ↔ made.1.2 = None)
    ∧ (∀ r, archiver = Some r →
         cluster r = cluster0 ∧ env r = env0 ∧ spool r = made.1.1
         ∧ entries = [])
    ∧ (∀ cause, made.1.2 = Some cause →
         ∃ e, err = Some e ∧ Unwrap e = Some cause
              ∧ Error e = "while creating spool directory: " +:+ Error cause
              ∧ entries = [spool_entry spoolDirectory]).
Proof.
  intros made. unfold New, bind, with_ext, ret. subst made.
  destruct (spool_New spoolDirectory (ext w)) as [[sp [e|]] x]; simpl.
  - eexists None, _, _, _. split; [done|]. simpl.
    split_and!; try done;
      try (split; [by intros [? ?]|done]);
      intros; simplify_eq; eauto.
  - eexists (Some _), _, _, _. split; [done|]. simpl.
    split_and!; try done; intros; by simplify_eq.
Qed.

(** X3. A miss is reported for the sentinel itself and for nothing else:
    [RestoreFromSpool] returns (false, nil) exactly when [MoveOut]
    returned [ErrorNonExistentFile].  An error that merely wraps the
    sentinel is compared with [==], is not equal to it, and comes back to
    the caller as an error. *)
Theorem RestoreFromSpool_miss_only_for_sentinel (restorer : WALRestorer)
    (walName destinationPath : string) (w : World) :
  let moved := spool_MoveOut (spool restorer) walName destinationPath (ext w) in
  ∃ res w',
    RestoreFromSpool restorer walName destinationPath w = Some (res, w')
    ∧ (res = (false, None) ↔ moved.1 = Some spool_ErrorNonExistentFile)
    ∧ (∀ msg, moved.1 = Some (wrapError msg spool_ErrorNonExistentFile) →
         res = (false, Some (wrapError msg spool_ErrorNonExistentFile))).
Proof.
  intros moved. unfold RestoreFromSpool, bind, with_ext, ret. subst moved.
  destruct (spool_MoveOut _ _ _ _) as [[e|] x]; simpl.
  - destruct (decide (e = spool_ErrorNonExistentFile)) as [->|Hne].
    + eexists _, _. split; [done|]. split; [done|].
      intros msg Heq. injection Heq as Heq. symmetry in Heq.
      by apply wrapError_neq in Heq.
    + eexists _, _. split; [done|]. split.
      * split; intros ?; by simplify_eq.
      * intros msg ?. by simplify_eq.
  - eexists _, _. split; [done|]. split; [|done]. split; intros ?; by simplify_eq.
Qed.

Lemma Restore_effect (restorer : WALRestorer) (walName destinationPath : string)
    (baseOptions : slice) (w : World) :
  slice_ok (strs w) baseOptions →
  ∃ err w' p,
    Restore restorer walName destinationPath baseOptions w = Some (err, w')
    ∧ procs w' = procs w ++ [p]
    ∧ Args (proc_cmd p) =
        BarmanCloudWalRestore ::
          elems (strs w) baseOptions ++ [walName; destinationPath]
    ∧ strs w ⊆ strs w'.
Proof.
  intros Hok. rewrite Restore_run by done. cbv zeta.
  eexists _, _, (mkProc _ _). split; [done|]. simpl. split_and!; try done.
  apply insert_subseteq, not_elem_of_dom, is_fresh.
Qed.

(** X4. Two calls of [Restore] with the same options, one after the other:
    each executes one subprocess, and the second is given the options as
    they were before the first, followed by its own two arguments; what
    the first call appended has not leaked into the shared options. *)
Theorem Restore_twice (restorer : WALRestorer)
    (walName1 destinationPath1 walName2 destinationPath2 : string)
    (baseOptions : slice) (w : World) :
  slice_ok (strs w) baseOptions →
  ∃ err1 w1 err2 w2 p1 p2,
    Restore restorer walName1 destinationPath1 baseOptions w = Some (err1, w1)
    ∧ Restore restorer walName2 destinationPath2 baseOptions w1 = Some (err2, w2)
    ∧ procs w2 = procs w ++ [p1; p2]
    ∧ Args (proc_cmd p1) =
        BarmanCloudWalRestore ::
          elems (strs w) baseOptions ++ [walName1; destinationPath1]
    ∧ Args (proc_cmd p2) =
        BarmanCloudWalRestore ::
          elems (strs w) baseOptions ++ [walName2; destinationPath2]
    ∧ elems (strs w2) baseOptions = elems (strs w) baseOptions.
Proof.
  intros Hok.
  destruct (Restore_effect restorer walName1 destinationPath1 baseOptions w Hok)
    as (err1 & w1 & p1 & H1 & Hp1 & Ha1 & Hsub1).
  assert (slice_ok (strs w1) baseOptions) as Hok1 by by eapply slice_ok_subseteq.
  assert (elems (strs w1) baseOptions = elems (strs w) baseOptions) as Hel
    by by apply elems_subseteq.
  destruct (Restore_effect restorer walName2 destinationPath2 baseOptions w1 Hok1)
    as (err2 & w2 & p2 & H2 & Hp2 & Ha2 & Hsub2).
  exists err1, w1, err2, w2, p1, p2. split_and!; try done.
  - by rewrite Hp2, Hp1, <- (assoc_L (++)).
  - by rewrite Ha2, Hel.
  - rewrite <- Hel. by apply elems_subseteq.
Qed.

End MoreOnRestore.

(** ** More on RestoreList *)

Section MoreOnRestoreList.

Context `{Outside}.

Variable restorer : WALRestorer.
Variable fetchList : slice.
Variable destinationPath : string.
Variable options : slice.
Variable w0 : World.

Local Abbreviation INV := (Inv restorer fetchList destinationPath options w0).
Local Abbreviation step := (thread_step restorer fetchList destinationPath options).
Local Abbreviation exec := (run restorer fetchList destinationPath options).
Local Abbreviation reach := (reachable restorer fetchList destinationPath options w0).
Local Abbreviation opts := (base_options options w0).
Local Abbreviation names := (batch fetchList w0).

(** X5. A statement of goroutine [k] leaves every slot but slot [k] as it
    was, and the list of results keeps its length; a statement of the
    calling thread, once the list is allocated, leaves all of it alone. *)
Theorem RestoreList_goroutine_writes_own_slot :
  slice_ok (strs w0) fetchList → slice_ok (strs w0) options →
  ∀ s s', reach s →
    (∀ k, step (Go k) s = Next s' →
       ∃ rs rs',
         resultList s = Some rs ∧ resultList s' = Some rs'
         ∧ length rs' = length rs ∧ k < length rs
         ∧ ∀ j, j ≠ k → rs' !! j = rs !! j)
    ∧ (step Main s = Next s' → main s ≠ MMake → resultList s' = resultList s).
Proof.
  intros Hf Ho s s' Hs.
  pose proof (reachable_inv _ _ _ _ _ Hf Ho s Hs) as HI. split.
  - intros k Hstep. simpl in Hstep.
    destruct (goroutines s !! k) as [g|] eqn:Hg; [|done].
    destruct (goroutine_step_shape _ _ _ _ _ Hf Ho s s' k g HI Hg Hstep)
      as (rs & r & r' & g' & Hrs & Hr & Hrs' & _).
    exists rs, (<[k:=r']> rs). split_and!; try done.
    + by rewrite length_insert.
    + by eapply lookup_lt_Some.
    + intros j Hj. by rewrite list_lookup_insert_ne.
  - intros Hstep Hm. simpl in Hstep.
    destruct (main_step_shape _ s s' Hstep) as (_ & _ & [?|[? _]] & _); done.
Qed.

(** X6. A goroutine that has not ended can always run its next statement:
    it never waits for another goroutine or for the calling thread, and
    it never panics. *)
Theorem RestoreList_goroutine_never_waits :
  slice_ok (strs w0) fetchList → slice_ok (strs w0) options →
  ∀ s k g, reach s → goroutines s !! k = Some g → at_pc g ≠ WExit →
    walIndex g = k ∧ k < len fetchList ∧ ∃ s', step (Go k) s = Next s'.
Proof.
  intros Hf Ho s k g Hs Hg Hx.
  pose proof (reachable_inv _ _ _ _ _ Hf Ho s Hs) as HI.
  destruct (inv_slot _ _ _ _ _ _ HI k g Hg) as (rs & r & _ & _ & Hi & _).
  destruct (inv_main _ _ _ _ _ _ HI) as [Hlen _].
  split; [done|]. split; [apply lookup_lt_Some in Hg; lia|].
  pose proof (goroutine_step_ok _ _ _ _ _ Hf Ho s k g HI Hg) as Hok.
  simpl. rewrite Hg.
  destruct (goroutine_step _ _ _ _ _ _ _) as [s'| |]; [by exists s'|done..].
Qed.

(** X7. The barrier.  The counter of the wait group is never negative, and
    once the loop is over it is the number of goroutines that have not
    yet called [Done]; so [Wait] holds the calling thread back exactly
    while some goroutine has not ended. *)
Theorem RestoreList_wait_is_a_barrier :
  slice_ok (strs w0) fetchList → slice_ok (strs w0) options →
  ∀ s, reach s →
    (0 ≤ waitGroup s)%Z
    ∧ (main s = MWait →
         length (goroutines s) = len fetchList
         ∧ waitGroup s =
             Z.of_nat (length (filter (λ g, at_pc g ≠ WExit) (goroutines s)))
         ∧ (step Main s = Blocked ↔
            ∃ k g, goroutines s !! k = Some g ∧ at_pc g ≠ WExit)).
Proof.
  intros Hf Ho s Hs.
  pose proof (reachable_inv _ _ _ _ _ Hf Ho s Hs) as HI.
  pose proof (inv_wg _ _ _ _ _ _ HI) as Hwg.
  pose proof (alive_nonneg (goroutines s)) as Hnn.
  assert (∀ gs, alive gs = Z.of_nat (length (filter (λ g, at_pc g ≠ WExit) gs)))
    as Hcount.
  { induction gs as [|g gs IH]; [done|]. simpl. rewrite filter_cons, IH.
    unfold live. destruct (decide (at_pc g ≠ WExit)) as [Hx|Hx].
    - simpl. destruct (at_pc g); try done; lia.
    - apply dec_stable in Hx. rewrite Hx. lia. }
  split.
  - rewrite Hwg. unfold pending. destruct (main s); lia.
  - intros Hm. destruct (inv_main _ _ _ _ _ _ HI) as [_ Hmain].
    rewrite Hm in Hmain, Hwg. simpl in Hwg.
    split; [done|]. split; [by rewrite Hwg, Hcount|].
    simpl. unfold main_step. rewrite Hm. split.
    + destruct (decide _) as [H0|Hne]; [done|]. intros _.
      apply alive_exists. lia.
    + intros (k & g & Hg & Hx). destruct (decide _) as [H0|Hne]; [|done].
      exfalso. apply Hx. eapply alive_0_exited; [|done]. lia.
Qed.

(** X8. Once a goroutine has stored its end time, its slot is final: however
    the call goes on, the result at that index stays what it is. *)
Theorem RestoreList_finished_slot_is_final :
  slice_ok (strs w0) fetchList → slice_ok (strs w0) options →
  ∀ sched s s' k g r,
    reach s → goroutines s !! k = Some g →
    at_pc g = WLog ∨ at_pc g = WDone ∨ at_pc g = WExit →
    (resultList s ≫= (.!! k)) = Some r →
    exec sched s = Some s' →
    (resultList s' ≫= (.!! k)) = Some r.
Proof.
  intros Hf Ho sched. induction sched as [|t sched IH];
    intros s s' k g r Hs Hg Hpc Hr Hrun; simplify_eq/=; [done|].
  destruct (step t s) as [s1| |] eqn:Hstep; [|done..].
  pose proof (reachable_inv _ _ _ _ _ Hf Ho s Hs) as HI.
  assert (reach s1) as Hs1 by by eapply reachable_step.
  assert (5 ≤ rank (at_pc g)) as Hrank by (destruct Hpc as [->|[->| ->]]; simpl; lia).
  assert (∃ g1, goroutines s1 !! k = Some g1 ∧ 5 ≤ rank (at_pc g1)
                ∧ (resultList s1 ≫= (.!! k)) = Some r) as (g1 & Hg1 & Hrank1 & Hr1).
  { destruct t as [|k']; simpl in Hstep.
    - destruct (main_step_shape _ s s1 Hstep) as (_ & _ & Hres & Hgs).
      exists g. split_and!; try done.
      + destruct Hgs as [->|(idx & _ & ->)]; [done|by apply lookup_app_l_Some].
      + destruct Hres as [->|[Hm _]]; [done|].
        destruct (inv_main _ _ _ _ _ _ HI) as [_ Hmain]. rewrite Hm in Hmain.
        destruct Hmain as [_ Hnil]. by rewrite Hnil in Hg.
    - destruct (goroutines s !! k') as [g'|] eqn:Hg'; [|done].
      destruct (goroutine_step_shape _ _ _ _ _ Hf Ho s s1 k' g' HI Hg' Hstep)
        as (rs & rk & rk' & g1 & Hrs & Hrk & Hrs1 & Hgs1 & _ & Hrk1 & Heff).
      rewrite Hrs in Hr. simpl in Hr. rewrite Hrs1, Hgs1. simpl.
      destruct (decide (k' = k)) as [->|Hne].
      + simplify_eq. exists g1.
        rewrite !list_lookup_insert_eq by by eapply lookup_lt_Some.
        split_and!; [done|lia|].
        unfold step_effect in Heff.
        destruct Hpc as [Hpc|[Hpc|Hpc]]; rewrite Hpc in Heff;
          [by destruct Heff as [-> _]|by destruct Heff as [-> _]|done].
      + exists g. rewrite !list_lookup_insert_ne by done. by split_and!. }
  eapply (IH s1 s' k g1 r); try done.
  destruct (at_pc g1); simpl in Hrank1; try lia; eauto.
Qed.

End MoreOnRestoreList.

(** ** RestoreList under assumptions on the outside *)

Section RestoreListOutside.

Context `{Outside}.

Variable restorer : WALRestorer.
Variable fetchList : slice.
Variable destinationPath : string.
Variable options : slice.
Variable w0 : World.

Hypothesis fetchList_ok : slice_ok (strs w0) fetchList.
Hypothesis options_ok : slice_ok (strs w0) options.

Local Abbreviation INV := (Inv restorer fetchList destinationPath options w0).
Local Abbreviation step := (thread_step restorer fetchList destinationPath options).
Local Abbreviation reach := (reachable restorer fetchList destinationPath options w0).
Local Abbreviation EFFECT := (step_effect restorer fetchList destinationPath options w0).
Local Abbreviation CMD := (cmd_at restorer fetchList destinationPath options w0).

(** Under a clock that never runs backwards, a slot's start time is not
    ahead of the clock, and its end time is not before its start time. *)
Lemma reachable_times (clock : Ext → Time) (s : State) :
  monotone_clock clock → reach s →
  ∀ k g rs r,
    goroutines s !! k = Some g → resultList s = Some rs → rs !! k = Some r →
    (3 ≤ rank (at_pc g) → (StartTime r ≤ clock (ext (world s)))%Z)
    ∧ (5 ≤ rank (at_pc g) → (StartTime r ≤ EndTime r)%Z).
Proof.
  intros [Hnow Hrun] Hs.
  induction Hs as [|s t s' Hs IH Hstep]; [done|].
  pose proof (reachable_inv _ _ _ _ _ fetchList_ok options_ok s Hs) as HI.
  intros k g rs' r Hg Hrs' Hr. destruct t as [|k']; simpl in Hstep.
  - destruct (main_step_shape _ s s' Hstep) as (Hw & _ & Hres & Hgs).
    rewrite Hw. destruct Hgs as [Hgs|(idx & Hm & Hgs)]; rewrite Hgs in Hg.
    + destruct Hres as [Hres|[Hm _]].
      * rewrite Hres in Hrs'. by eapply IH.
      * destruct (inv_main _ _ _ _ _ _ HI) as [_ Hmain]. rewrite Hm in Hmain.
        destruct Hmain as [_ Hnil]. by rewrite Hnil in Hg.
    + destruct Hres as [Hres|[Hm' _]]; [|congruence]. rewrite Hres in Hrs'.
      apply lookup_app_Some in Hg as [Hg|[_ Hg]]; [by eapply IH|].
      apply list_lookup_singleton_Some in Hg as [_ <-]. simpl. lia.
  - destruct (goroutines s !! k') as [g0|] eqn:Hg0; [|done].
    destruct (goroutine_step_shape _ _ _ _ _ fetchList_ok options_ok
                s s' k' g0 HI Hg0 Hstep)
      as (rs & r0 & r0' & g0' & Hrs & Hr0 & Hrs1 & Hgs1 & _ & Hrank & Heff).
    rewrite Hrs1 in Hrs'. simplify_eq. rewrite Hgs1 in Hg.
    destruct (IH k' g0 rs r0 Hg0 Hrs Hr0) as [IH3 IH5].
    assert (clock (ext (world s)) ≤ clock (ext (world s')))%Z as Hclock.
    { unfold step_effect in Heff.
      pose proof (Hnow (ext (world s))) as [? ?].
      pose proof (Hrun (CMD k') (ext (world s))).
      destruct (at_pc g0); destruct_and?; try done;
        repeat match goal with Hw : world s' = _ |- _ => rewrite Hw end;
        repeat match goal with Hw : ext (world s') = _ |- _ => rewrite Hw end;
        simpl; lia. }
    destruct (decide (k' = k)) as [->|Hne].
    + rewrite list_lookup_insert_eq in Hg by by eapply lookup_lt_Some.
      rewrite list_lookup_insert_eq in Hr by by eapply lookup_lt_Some.
      simplify_eq. unfold step_effect in Heff.
      pose proof (Hnow (ext (world s))) as [? ?].
      destruct (at_pc g0) eqn:Hpc; simpl in *; rewrite Hrank;
        destruct_and?; subst; simpl in *; try done;
        repeat match goal with
          | Hw : world s' = _ |- _ => rewrite Hw in *; clear Hw
          | Hw : ext (world s') = _ |- _ => rewrite Hw in *; clear Hw
          end;
        simpl in *;
        (split; intros ?;
         repeat match goal with
           | Hi : _ <= _ → _ |- _ =>
               first [specialize (Hi ltac:(lia)) | clear Hi]
           end; lia).
    + rewrite list_lookup_insert_ne in Hg by done.
      rewrite list_lookup_insert_ne in Hr by done.
      destruct (IH k g rs r Hg Hrs Hr) as [? ?]. split; [|done].
      intros ?. etrans; [eauto|done].
Qed.

(** While the outside stays within [stable], every subprocess a
    goroutine has run ended the way its command line decides. *)
Lemma reachable_exits (stable : Ext → Prop) (exit_of : Cmd → ProcessState)
    (s : State) :
  decided_by_command stable exit_of → stable (ext w0) → reach s →
  stable (ext (world s))
  ∧ ∀ k g p, goroutines s !! k = Some g → ran g = Some p →
      proc_state p = exit_of (proc_cmd p).
Proof.
  intros [Hnow Hrun] H0 Hs.
  induction Hs as [|s t s' Hs [IHst IH] Hstep]; [done|].
  pose proof (reachable_inv _ _ _ _ _ fetchList_ok options_ok s Hs) as HI.
  destruct t as [|k']; simpl in Hstep.
  - destruct (main_step_shape _ s s' Hstep) as (Hw & _ & _ & Hgs).
    rewrite Hw. split; [done|]. intros k g p Hg Hp.
    destruct Hgs as [Hgs|(idx & _ & Hgs)]; rewrite Hgs in Hg; [by eapply IH|].
    apply lookup_app_Some in Hg as [Hg|[_ Hg]]; [by eapply IH|].
    apply list_lookup_singleton_Some in Hg as [_ <-]. done.
  - destruct (goroutines s !! k') as [g0|] eqn:Hg0; [|done].
    destruct (goroutine_step_shape _ _ _ _ _ fetchList_ok options_ok
                s s' k' g0 HI Hg0 Hstep)
      as (rs & r0 & r0' & g0' & Hrs & Hr0 & Hrs1 & Hgs1 & _ & Hrank & Heff).
    unfold step_effect in Heff. split.
    + destruct (at_pc g0); destruct_and?; try done;
        repeat match goal with Hw : world s' = _ |- _ => rewrite Hw end;
        repeat match goal with Hw : ext (world s') = _ |- _ => rewrite Hw end;
        simpl; try done; [by apply Hnow|by apply Hrun|by apply Hnow].
    + intros k g p Hg Hp. rewrite Hgs1 in Hg.
      destruct (decide (k' = k)) as [->|Hne].
      * rewrite list_lookup_insert_eq in Hg by by eapply lookup_lt_Some.
        simplify_eq.
        destruct (at_pc g0); destruct_and?; try done;
          try (eapply (IH k g0); [done|congruence]).
        simplify_eq. simpl. by destruct (Hrun (CMD k) (ext (world s)) IHst).
      * rewrite list_lookup_insert_ne in Hg by done. by eapply IH.
Qed.

End RestoreListOutside.

Section MoreOnRestoreListOutside.

Context `{Outside}.

Variable restorer : WALRestorer.
Variable fetchList : slice.
Variable destinationPath : string.
Variable options : slice.
Variable w0 : World.

Local Abbreviation reach := (reachable restorer fetchList destinationPath options w0).
Local Abbreviation NAME := (name_at fetchList w0).
Local Abbreviation DEST := (dest_at restorer fetchList destinationPath w0).
Local Abbreviation CMD := (cmd_at restorer fetchList destinationPath options w0).

(** What a returned call has for index [j]: the goroutine that ended,
    the subprocess it ran and the final slot. *)
Lemma returned_slot (s : State) (rs : list Result) (j : nat) (r : Result) :
  slice_ok (strs w0) fetchList → slice_ok (strs w0) options →
  reach s → main s = MDone → resultList s = Some rs → rs !! j = Some r →
  ∃ g p, goroutines s !! j = Some g ∧ at_pc g = WExit ∧ ran g = Some p
         ∧ slot_done restorer fetchList destinationPath options w0 j r p.
Proof.
  intros Hf Ho Hs Hd Hrs Hr.
  pose proof (reachable_inv _ _ _ _ _ Hf Ho s Hs) as HI.
  destruct (returned_slots _ _ _ _ _ s HI Hd)
    as (rs' & ps & Hrs' & Hlen & _ & Hgs & Hexit & _).
  simplify_eq.
  destruct (lookup_lt_is_Some_2 (goroutines s) j) as [g Hg].
  { apply lookup_lt_Some in Hr. lia. }
  destruct (inv_slot _ _ _ _ _ _ HI j g Hg) as (rs' & r' & ? & ? & Hslot).
  simplify_eq. destruct Hslot as (_ & Hname & Hdest & _ & Hran & _).
  pose proof (Hexit j g Hg) as Hx. rewrite Hx in *. simpl in *.
  destruct Hran as (p & Hp & Hcmd & Herr).
  exists g, p. unfold slot_done. by repeat split.
Qed.

(** X9. With a clock that never runs backwards, every result of a returned
    call ends no earlier than it starts, and the elapsed time that is
    logged for it is not negative: it is the difference of the two
    times, or the largest [Duration] when the difference does not fit. *)
Theorem RestoreList_times_in_order (clock : Ext → Time) :
  monotone_clock clock →
  slice_ok (strs w0) fetchList → slice_ok (strs w0) options →
  ∀ s res, reach s → returned s = Some res →
    ∃ rs,
      res = Some rs
      ∧ ∀ j r, rs !! j = Some r →
          (StartTime r ≤ EndTime r)%Z
          ∧ (0 ≤ elapsed r)%Z
          ∧ (elapsed r = (EndTime r - StartTime r)%Z ∨ elapsed r = maxDuration).
Proof.
  intros Hclock Hf Ho s res Hs [Hd ->]%returned_MDone.
  pose proof (reachable_inv _ _ _ _ _ Hf Ho s Hs) as HI.
  destruct (inv_results _ _ _ _ _ _ HI) as (rs & Hrs & _); [by rewrite Hd|].
  exists rs. split; [done|]. intros j r Hr.
  destruct (returned_slot s rs j r Hf Ho Hs Hd Hrs Hr) as (g & p & Hg & Hx & _).
  destruct (reachable_times _ _ _ _ _ Hf Ho clock s Hclock Hs j g rs r Hg Hrs Hr)
    as [_ Hle].
  rewrite Hx in Hle. specialize (Hle ltac:(simpl; lia)).
  unfold elapsed, time_Sub, minDuration, maxDuration.
  repeat case_match; split_and!; try done; try lia; eauto.
Qed.

(** X10. When the exit of the fetch tool depends on its command line only,
    what a call returns, times apart, is the same under every schedule:
    at index [j] the segment name, its destination and the error
    [Restore] makes of the exit the command line of index [j] decides. *)
Theorem RestoreList_same_under_every_schedule
    (stable : Ext → Prop) (exit_of : Cmd → ProcessState) :
  decided_by_command stable exit_of → stable (ext w0) →
  slice_ok (strs w0) fetchList → slice_ok (strs w0) options →
  ∀ s res, reach s → returned s = Some res →
    ∃ rs,
      res = Some rs
      ∧ (λ r, (WalName r, DestinationPath r, Err r)) <$> rs =
        (λ j, (NAME j, DEST j, restore_err (exit_of (CMD j))))
          <$> seq 0 (len fetchList).
Proof.
  intros Hdec Hst Hf Ho s res Hs [Hd ->]%returned_MDone.
  pose proof (reachable_inv _ _ _ _ _ Hf Ho s Hs) as HI.
  destruct (inv_results _ _ _ _ _ _ HI) as (rs & Hrs & Hlen); [by rewrite Hd|].
  exists rs. split; [done|].
  apply list_eq. intros j. rewrite !list_lookup_fmap.
  destruct (rs !! j) as [r|] eqn:Hr; simpl.
  - destruct (returned_slot s rs j r Hf Ho Hs Hd Hrs Hr)
      as (g & p & Hg & _ & Hp & Hname & Hdest & Hcmd & Herr).
    destruct (reachable_exits _ _ _ _ _ Hf Ho stable exit_of s Hdec Hst Hs)
      as [_ Hexits].
    rewrite (lookup_seq_lt 0 (len fetchList) j)
      by (apply lookup_lt_Some in Hr; lia).
    simpl. by rewrite Hname, Hdest, Herr, (Hexits j g p Hg Hp), Hcmd.
  - apply lookup_ge_None in Hr.
    by rewrite (lookup_seq_ge 0 (len fetchList) j) by lia.
Qed.

(** X11. When the spool maps different names to different files, two
    speculative fetches (indexes 1 and up) of segments with different
    names are given different destinations. *)
Theorem RestoreList_speculative_destinations_differ :
  Inj (=) (=) (spool_FileName (spool restorer)) →
  slice_ok (strs w0) fetchList → slice_ok (strs w0) options →
  ∀ s res, reach s → returned s = Some res →
    ∃ rs,
      res = Some rs
      ∧ ∀ i j ri rj,
          rs !! i = Some ri → rs !! j = Some rj → 1 ≤ i → 1 ≤ j →
          WalName ri ≠ WalName rj →
          DestinationPath ri ≠ DestinationPath rj.
Proof.
  intros Hinj Hf Ho s res Hs [Hd ->]%returned_MDone.
  pose proof (reachable_inv _ _ _ _ _ Hf Ho s Hs) as HI.
  destruct (inv_results _ _ _ _ _ _ HI) as (rs & Hrs & Hlen); [by rewrite Hd|].
  exists rs. split; [done|]. intros i j ri rj Hi Hj Hi1 Hj1 Hne Heq.
  destruct (returned_slot s rs i ri Hf Ho Hs Hd Hrs Hi)
    as (_ & _ & _ & _ & _ & Hni & Hdi & _).
  destruct (returned_slot s rs j rj Hf Ho Hs Hd Hrs Hj)
    as (_ & _ & _ & _ & _ & Hnj & Hdj & _).
  rewrite Hdi, Hdj in Heq. unfold dest_at in Heq.
  rewrite !decide_False in Heq by lia.
  apply Hinj in Heq. congruence.
Qed.

End MoreOnRestoreListOutside.

Section NewThenRestoreList.

Context `{Outside}.

(** X2. From the constructor to the subprocesses: when [New] has returned a
    restorer, a call of [RestoreList] on it can always be run to its
    return, and by then it has run one subprocess per segment, each of
    them the fetch tool with the environment that was given to [New];
    [New] itself has run none. *)
Theorem New_environment_reaches_every_fetch
    (spool_New : string → Ext → (WALSpool * option error) * Ext)
    (cluster0 : Cluster) (env0 : list string) (spoolDirectory : string)
    (w w0 : World) (restorer : WALRestorer) (err : option error)
    (entries : list LogEntry)
    (fetchList : slice) (destinationPath : string) (options : slice) :
  New spool_New cluster0 env0 spoolDirectory w =
    Some ((Some restorer, err, entries), w0) →
  slice_ok (strs w0) fetchList → slice_ok (strs w0) options →
  ∀ s,
    reachable restorer fetchList destinationPath options w0 s →
    (∃ sched s',
        run restorer fetchList destinationPath options sched s = Some s'
        ∧ is_Some (returned s'))
    ∧ ∀ res, returned s = Some res →
        ∃ ps,
          length ps = len fetchList
          ∧ procs (world s) ≡ₚ procs w ++ ps
          ∧ ∀ p, p ∈ ps →
              Env (proc_cmd p) = env0
              ∧ head (Args (proc_cmd p)) = Some BarmanCloudWalRestore.
Proof.
  intros Hnew Hf Ho s Hs.
  pose proof (reachable_inv _ _ _ _ _ Hf Ho s Hs) as HI.
  split.
  { destruct (run_to_return _ _ _ _ _ Hf Ho s HI) as (sched & s' & Hrun & Hd).
    exists sched, s'. split; [done|]. unfold returned. rewrite Hd. eauto. }
  intros res [Hd ->]%returned_MDone.
  assert (env restorer = env0 ∧ procs w0 = procs w) as [Henv Hprocs0].
  { unfold New, bind, with_ext, ret in Hnew.
    destruct (spool_New spoolDirectory (ext w)) as [[sp [e|]] x];
      simpl in Hnew; by simplify_eq. }
  destruct (returned_slots _ _ _ _ _ s HI Hd)
    as (rs & ps & Hrs & Hlen & Hpslen & _ & _ & Hprocs & _ & Hslots).
  exists ps. split_and!; [done|by rewrite <- Hprocs0|].
  intros p (j & Hp)%list_elem_of_lookup_1.
  destruct (lookup_lt_is_Some_2 rs j) as [r Hr].
  { apply lookup_lt_Some in Hp. lia. }
  destruct (Hslots j r Hr) as (p' & Hp' & _ & _ & Hcmd & _). simplify_eq.
  rewrite Hcmd. unfold cmd_at, fetch_cmd. simpl. done.
Qed.

End NewThenRestoreList.

(** ** The further statements at work in the small world *)

Section DemonstrationMore.

Local Existing Instance Demo.outside.

Import Demo DemoMore.

(** The goroutines taking turns statement by statement: the same names,
    destinations and errors as when they run one after the other. *)
Example RestoreList_round_robin :
  match RestoreList restorer fetchList dest options (round_robin 3) w0 with
  | Some s =>
      option_map (map (λ r, (WalName r, DestinationPath r, Err r))) (resultList s)
  | None => None
  end =
  Some [(A, dest, None);
        (B, "/spool/00000001000000000000004B",
         Some (wrapError
                 "unexpected failure invoking barman-cloud-wal-restore: exit status 1"
                 (ExitError 1)));
        (C, "/spool/00000001000000000000004C", None)].
Proof. vm_compute. reflexivity. Qed.

(** The constructor on a directory that cannot be made. *)
Example New_fails :
  option_map fst (New spool_new tt ["AWS_REGION=eu"] "" w0) =
  Some (None,
        Some (wrapError
                "while creating spool directory: mkdir : no such file or directory"
                (errorString "mkdir : no such file or directory")),
        [spool_entry ""]).
Proof. vm_compute. reflexivity. Qed.

(** A spool that wraps the sentinel: the missing file comes back as an
    error, not as a miss. *)
Example RestoreFromSpool_wrapped_sentinel :
  option_map fst
    (RestoreFromSpool (H := outside_wrapping)
       (@mkWALRestorer outside_wrapping tt "/spool" []) B dest
       (@mkWorld outside_wrapping h0 [] (mkSim 100%Z [] ∅))) =
  Some (false, Some (wrapError "rename: file does not exist" ErrorNonExistentFile)).
Proof. vm_compute. reflexivity. Qed.

Lemma Restore_twice_witness :
  slice_ok (strs w0) options ∧
  ∃ err1 w1 err2 w2 p1 p2,
    Restore restorer A dest options w0 = Some (err1, w1)
    ∧ Restore restorer B "/spool/B" options w1 = Some (err2, w2)
    ∧ procs w2 = procs w0 ++ [p1; p2]
    ∧ Args (proc_cmd p1) =
        BarmanCloudWalRestore :: elems (strs w0) options ++ [A; dest]
    ∧ Args (proc_cmd p2) =
        BarmanCloudWalRestore :: elems (strs w0) options ++ [B; "/spool/B"]
    ∧ elems (strs w2) options = elems (strs w0) options.
Proof.
  split; [split; vm_compute; lia|].
  apply (Restore_twice restorer A dest B "/spool/B" options w0).
  split; vm_compute; lia.
Defined.

Lemma RestoreList_goroutine_writes_own_slot_witness :
  slice_ok (strs w0) fetchList ∧ slice_ok (strs w0) options ∧
  ∀ s s', reachable restorer fetchList dest options w0 s →
    (∀ k, thread_step restorer fetchList dest options (Go k) s = Next s' →
       ∃ rs rs',
         resultList s = Some rs ∧ resultList s' = Some rs'
         ∧ length rs' = length rs ∧ k < length rs
         ∧ ∀ j, j ≠ k → rs' !! j = rs !! j)
    ∧ (thread_step restorer fetchList dest options Main s = Next s' →
       main s ≠ MMake → resultList s' = resultList s).
Proof.
  split; [split; vm_compute; lia|]. split; [split; vm_compute; lia|].
  apply (RestoreList_goroutine_writes_own_slot restorer fetchList dest options w0);
    split; vm_compute; lia.
Defined.

Lemma RestoreList_goroutine_never_waits_witness :
  slice_ok (strs w0) fetchList ∧ slice_ok (strs w0) options ∧
  ∀ s k g, reachable restorer fetchList dest options w0 s →
    goroutines s !! k = Some g → at_pc g ≠ WExit →
    walIndex g = k ∧ k < len fetchList
    ∧ ∃ s', thread_step restorer fetchList dest options (Go k) s = Next s'.
Proof.
  split; [split; vm_compute; lia|]. split; [split; vm_compute; lia|].
  apply (RestoreList_goroutine_never_waits restorer fetchList dest options w0);
    split; vm_compute; lia.
Defined.

Lemma RestoreList_wait_is_a_barrier_witness :
  slice_ok (strs w0) fetchList ∧ slice_ok (strs w0) options ∧
  ∀ s, reachable restorer fetchList dest options w0 s →
    (0 ≤ waitGroup s)%Z
    ∧ (main s = MWait →
         length (goroutines s) = len fetchList
         ∧ waitGroup s =
             Z.of_nat (length (filter (λ g, at_pc g ≠ WExit) (goroutines s)))
         ∧ (thread_step restorer fetchList dest options Main s = Blocked ↔
            ∃ k g, goroutines s !! k = Some g ∧ at_pc g ≠ WExit)).
Proof.
  split; [split; vm_compute; lia|]. split; [split; vm_compute; lia|].
  apply (RestoreList_wait_is_a_barrier restorer fetchList dest options w0);
    split; vm_compute; lia.
Defined.

Lemma RestoreList_finished_slot_is_final_witness :
  slice_ok (strs w0) fetchList ∧ slice_ok (strs w0) options ∧
  ∀ sched s s' k g r,
    reachable restorer fetchList dest options w0 s →
    goroutines s !! k = Some g →
    at_pc g = WLog ∨ at_pc g = WDone ∨ at_pc g = WExit →
    (resultList s ≫= (.!! k)) = Some r →
    run restorer fetchList dest options sched s = Some s' →
    (resultList s' ≫= (.!! k)) = Some r.
Proof.
  split; [split; vm_compute; lia|]. split; [split; vm_compute; lia|].
  apply (RestoreList_finished_slot_is_final restorer fetchList dest options w0);
    split; vm_compute; lia.
Defined.

Lemma RestoreList_times_in_order_witness :
  monotone_clock clock ∧
  slice_ok (strs w0) fetchList ∧ slice_ok (strs w0) options ∧
  ∀ s res, reachable restorer fetchList dest options w0 s → returned s = Some res →
    ∃ rs,
      res = Some rs
      ∧ ∀ j r, rs !! j = Some r →
          (StartTime r ≤ EndTime r)%Z
          ∧ (0 ≤ elapsed r)%Z
          ∧ (elapsed r = (EndTime r - StartTime r)%Z ∨ elapsed r = maxDuration).
Proof.
  assert (monotone_clock clock) as Hclock.
  { split.
    - intros e. simpl. lia.
    - intros c e. simpl. unfold fetch_tool.
      repeat case_match; simpl; lia. }
  split; [exact Hclock|].
  split; [split; vm_compute; lia|]. split; [split; vm_compute; lia|].
  apply (RestoreList_times_in_order restorer fetchList dest options w0 clock Hclock);
    split; vm_compute; lia.
Defined.

Lemma RestoreList_same_under_every_schedule_witness :
  decided_by_command stable exit_of ∧ stable (ext w0) ∧
  slice_ok (strs w0) fetchList ∧ slice_ok (strs w0) options ∧
  ∀ s res, reachable restorer fetchList dest options w0 s → returned s = Some res →
    ∃ rs,
      res = Some rs
      ∧ (λ r, (WalName r, DestinationPath r, Err r)) <$> rs =
        (λ j, (name_at fetchList w0 j,
               dest_at restorer fetchList dest w0 j,
               restore_err (exit_of (cmd_at restorer fetchList dest options w0 j))))
          <$> seq 0 (len fetchList).
Proof.
  assert (decided_by_command stable exit_of) as Hdec.
  { split.
    - intros e He. exact He.
    - intros c [t a d] He. unfold stable in He. simpl in He. subst a.
      unfold exit_of, stable. simpl. unfold fetch_tool. simpl.
      repeat case_match; simplify_eq; simpl; done. }
  split; [exact Hdec|]. split; [reflexivity|].
  split; [split; vm_compute; lia|]. split; [split; vm_compute; lia|].
  apply (RestoreList_same_under_every_schedule restorer fetchList dest options w0
           stable exit_of Hdec); [reflexivity|split; vm_compute; lia..].
Defined.

Lemma RestoreList_speculative_destinations_differ_witness :
  Inj (=) (=) (spool_FileName (spool restorer)) ∧
  slice_ok (strs w0) fetchList ∧ slice_ok (strs w0) options ∧
  ∀ s res, reachable restorer fetchList dest options w0 s → returned s = Some res →
    ∃ rs,
      res = Some rs
      ∧ ∀ i j ri rj,
          rs !! i = Some ri → rs !! j = Some rj → 1 ≤ i → 1 ≤ j →
          WalName ri ≠ WalName rj →
          DestinationPath ri ≠ DestinationPath rj.
Proof.
  assert (Inj (=) (=) (spool_FileName (spool restorer))) as Hinj.
  { intros x y Heq. simpl in Heq. unfold FileName in Heq.
    by do 2 apply String.app_inj in Heq. }
  split; [exact Hinj|].
  split; [split; vm_compute; lia|]. split; [split; vm_compute; lia|].
  apply (RestoreList_speculative_destinations_differ restorer fetchList dest
           options w0 Hinj); split; vm_compute; lia.
Defined.

Lemma New_environment_reaches_every_fetch_witness :
  New spool_new tt ["AWS_REGION=eu"] "/spool" w0 =
    Some ((Some restorer, None, []), w0) ∧
  slice_ok (strs w0) fetchList ∧ slice_ok (strs w0) options ∧
  ∀ s, reachable restorer fetchList dest options w0 s →
    (∃ sched s',
        run restorer fetchList dest options sched s = Some s'
        ∧ is_Some (returned s'))
    ∧ ∀ res, returned s = Some res →
        ∃ ps,
          length ps = len fetchList
          ∧ procs (world s) ≡ₚ procs w0 ++ ps
          ∧ ∀ p, p ∈ ps →
              Env (proc_cmd p) = ["AWS_REGION=eu"]
              ∧ head (Args (proc_cmd p)) = Some BarmanCloudWalRestore.
Proof.
  split; [reflexivity|].
  split; [split; vm_compute; lia|]. split; [split; vm_compute; lia|].
  apply (@New_environment_reaches_every_fetch outside spool_new tt ["AWS_REGION=eu"]
           "/spool" w0 w0 restorer None [] fetchList dest options);
    [reflexivity|split; vm_compute; lia..].
Defined.

End DemonstrationMore.

(** ** The log, the streamed output included *)

Section RestoreListWholeLog.

Context `{Outside}.

Variable restorer : WALRestorer.
Variable fetchList : slice.
Variable destinationPath : string.
Variable options : slice.
Variable w0 : World.

Local Abbreviation INV := (Inv restorer fetchList destinationPath options w0).
Local Abbreviation step := (thread_step restorer fetchList destinationPath options).
Local Abbreviation exec := (run restorer fetchList destinationPath options).
Local Abbreviation reach := (reachable restorer fetchList destinationPath options w0).
Local Abbreviation opts := (base_options options w0).
Local Abbreviation names := (batch fetchList w0).
Local Abbreviation CMD := (cmd_at restorer fetchList destinationPath options w0).

(** What has been streamed since the call began is informational. *)
Lemma reachable_streamed (streamed : Ext → list LogEntry) (s : State) :
  slice_ok (strs w0) fetchList → slice_ok (strs w0) options →
  streams_output streamed → reach s →
  ∃ out, streamed (ext (world s)) = streamed (ext w0) ++ out
         ∧ Forall (λ x, level x = InfoLevel) out.
Proof.
  intros Hf Ho [Hnow Hrun] Hs.
  induction Hs as [|s t s' Hs (out & Hout & Hinfo) Hstep].
  { exists []. by rewrite app_nil_r. }
  pose proof (reachable_inv _ _ _ _ _ Hf Ho s Hs) as HI.
  destruct t as [|k]; simpl in Hstep.
  - destruct (main_step_shape _ s s' Hstep) as (Hw & _). rewrite Hw. eauto.
  - destruct (goroutines s !! k) as [g|] eqn:Hg; [|done].
    destruct (goroutine_step_shape _ _ _ _ _ Hf Ho s s' k g HI Hg Hstep)
      as (rs & r & r' & g' & _ & _ & _ & _ & _ & _ & Heff).
    unfold step_effect in Heff.
    destruct (Hrun (CMD k) (ext (world s))) as (more & Hmore & Hminfo).
    destruct (at_pc g); destruct_and?; try done;
      repeat match goal with
        | Hw : world s' = _ |- _ => rewrite Hw; clear Hw
        | Hw : ext (world s') = _ |- _ => rewrite Hw; clear Hw
        end; simpl; rewrite ?Hnow; eauto.
    exists (out ++ more). rewrite Hmore, Hout, (assoc_L (++)).
    split; [done|]. by apply Forall_app.
Qed.

(** C5.  The log of a call, the streamed output of the subprocesses
    included.  Whatever the schedule, the call can be run to its return,
    and the log then holds: the entries the call itself
    has written through [contextLog], which are exactly one
    informational entry for every result without error, at whatever
    index, and one warning entry if the result at index 0 has an error;
    and the output of the subprocesses streamed since the call began,
    all of it informational.  In the whole of it there is a warning
    entry if and only if the fetch for index 0 failed, and that entry
    carries the segment name, the options, the start and end times, the
    elapsed time and the error.  For a failure at another index the call
    writes no entry of its own. *)
Theorem RestoreList_log_with_streamed_output (streamed : Ext → list LogEntry) :
  streams_output streamed →
  slice_ok (strs w0) fetchList → slice_ok (strs w0) options →
  ∀ s, reach s →
    (∃ sched s', exec sched s = Some s' ∧ is_Some (returned s'))
    ∧ ∀ res, returned s = Some res →
        ∃ rs out,
          res = Some rs
          ∧ streamed (ext (world s)) = streamed (ext w0) ++ out
          ∧ Forall (λ e, level e = InfoLevel) out
          ∧ (∀ e, e ∈ contextLog s ↔
               ∃ j r, rs !! j = Some r
                      ∧ ((Err r = None ∧ e = info_entry r (elapsed r))
                         ∨ (j = 0 ∧ is_Some (Err r)
                            ∧ e = warning_entry r opts (elapsed r))))
          ∧ length (contextLog s) =
              length (succeeded rs)
              + match rs !! 0 with
                | Some r => if decide (Err r = None) then 0 else 1
                | None => 0
                end
          ∧ ((∃ e, e ∈ contextLog s ++ out ∧ level e = WarningLevel) ↔
             (∃ r, rs !! 0 = Some r ∧ is_Some (Err r)))
          ∧ (∀ e, e ∈ contextLog s ++ out → level e = WarningLevel →
               ∃ r, rs !! 0 = Some r
                    ∧ names !! 0 = Some (WalName r)
                    ∧ keysAndValues e =
                        [("walName", VString (WalName r));
                         ("options", VStrings opts);
                         ("startTime", VTime (StartTime r));
                         ("endTime", VTime (EndTime r));
                         ("elapsedWalTime", VDuration (elapsed r));
                         ("error", VError (Err r))]).
Proof.
  intros Hstream Hf Ho s Hs.
  pose proof (reachable_inv _ _ _ _ _ Hf Ho s Hs) as HI.
  split.
  { destruct (run_to_return _ _ _ _ _ Hf Ho s HI) as (sched & s' & Hrun & Hd).
    exists sched, s'. split; [done|]. unfold returned. rewrite Hd. eauto. }
  intros res Hres.
  destruct (contextLog_at_return _ _ _ _ _ Hf Ho s res Hs Hres)
    as (rs & -> & Hin & Hlen & Hwarn & Hkeys).
  destruct (reachable_streamed streamed s Hf Ho Hstream Hs) as (out & Hout & Hinfo).
  assert (∀ e, e ∈ out → level e ≠ WarningLevel) as Hnowarn.
  { intros e He Hl. rewrite Forall_forall in Hinfo.
    specialize (Hinfo e He). congruence. }
  exists rs, out. split_and!; try done.
  - rewrite <- Hwarn. split.
    + intros (e & [He|He]%elem_of_app & Hl); [eauto|by destruct (Hnowarn e He)].
    + intros (e & He & Hl). exists e. split; [|done]. apply elem_of_app. by left.
  - intros e [He|He]%elem_of_app Hl; [by apply Hkeys|by destruct (Hnowarn e He)].
Qed.

End RestoreListWholeLog.

(** ** The log in the small world that keeps the streamed output *)

Section DemonstrationStream.

Local Existing Instance DemoStream.outside.

Import Demo DemoStream.

(** In the small world the sink grows only when the fetch tool runs, and
    by informational entries. *)
Lemma DemoStream_streams_output : streams_output sink.
Proof.
  split.
  - intros e. reflexivity.
  - intros c e. simpl. unfold fetch_tool_streaming.
    destruct (fetch_tool c (sim e)) as [st x]. simpl.
    exists (tool_output c st). split; [done|].
    unfold tool_output.
    destruct st as [n|?]; [destruct n as [|?|?]|];
      destruct (reverse (Args c)) as [|? [|? ?]];
      repeat constructor.
Qed.

(** The batch A, B, C with B missing from the archive: the call itself
    writes the two informational entries of A and C, and the sink has
    the line the fetch tool printed when it did not find B. *)
Example RestoreList_streamed_in_order :
  match RestoreList restorer fetchList dest options (in_order 3) w0 with
  | Some s => Some (map level (contextLog s), sink (ext (world s)))
  | None => None
  end = Some ([InfoLevel; InfoLevel], [B_not_found]).
Proof. vm_compute. reflexivity. Qed.

Lemma RestoreList_log_with_streamed_output_witness :
  streams_output sink ∧
  slice_ok (strs w0) fetchList ∧ slice_ok (strs w0) options ∧
  ∀ s, reachable restorer fetchList dest options w0 s →
    (∃ sched s', run restorer fetchList dest options sched s = Some s'
                 ∧ is_Some (returned s'))
    ∧ ∀ res, returned s = Some res →
        ∃ rs out,
          res = Some rs
          ∧ sink (ext (world s)) = sink (ext w0) ++ out
          ∧ Forall (λ e, level e = InfoLevel) out
          ∧ (∀ e, e ∈ contextLog s ↔
               ∃ j r, rs !! j = Some r
                      ∧ ((Err r = None ∧ e = info_entry r (elapsed r))
                         ∨ (j = 0 ∧ is_Some (Err r)
                            ∧ e = warning_entry r (base_options options w0)
                                    (elapsed r))))
          ∧ length (contextLog s) =
              length (succeeded rs)
              + match rs !! 0 with
                | Some r => if decide (Err r = None) then 0 else 1
                | None => 0
                end
          ∧ ((∃ e, e ∈ contextLog s ++ out ∧ level e = WarningLevel) ↔
             (∃ r, rs !! 0 = Some r ∧ is_Some (Err r)))
          ∧ (∀ e, e ∈ contextLog s ++ out → level e = WarningLevel →
               ∃ r, rs !! 0 = Some r
                    ∧ batch fetchList w0 !! 0 = Some (WalName r)
                    ∧ keysAndValues e =
                        [("walName", VString (WalName r));
                         ("options", VStrings (base_options options w0));
                         ("startTime", VTime (StartTime r));
                         ("endTime", VTime (EndTime r));
                         ("elapsedWalTime", VDuration (elapsed r));
                         ("error", VError (Err r))]).
Proof.
  split; [exact DemoStream_streams_output|].
  split; [split; vm_compute; lia|]. split; [split; vm_compute; lia|].
  apply (RestoreList_log_with_streamed_output restorer fetchList dest options w0 sink);
    [exact DemoStream_streams_output|split; vm_compute; lia..].
Defined.

(** A failed prefetch can leave an entry in the log: the fetch for
    index 1 fails, the fetch for index 0 does not, and when the call has
    returned the log has three entries for two successes, the third
    being the line the failing subprocess printed, streamed at
    informational level. *)
Lemma RestoreList_log_counterexample :
  ∃ s rs r0 r1,
    RestoreList restorer fetchList dest options (in_order 3) w0 = Some s
    ∧ returned s = Some (Some rs)
    ∧ rs !! 0 = Some r0 ∧ Err r0 = None
    ∧ rs !! 1 = Some r1 ∧ WalName r1 = B ∧ is_Some (Err r1)
    ∧ length (succeeded rs) = 2
    ∧ length (contextLog s) = 2
    ∧ sink (ext w0) = []
    ∧ sink (ext (world s)) = [B_not_found]
    ∧ level B_not_found = InfoLevel
    ∧ length (contextLog s ++ sink (ext (world s))) = 3.
Proof.
  eexists _, _, _, _.
  split; [vm_compute; reflexivity|].
  split; [vm_compute; reflexivity|].
  split; [vm_compute; reflexivity|].
  split; [vm_compute; reflexivity|].
  split; [vm_compute; reflexivity|].
  split; [vm_compute; reflexivity|].
  split; [vm_compute; eauto|].
  repeat split; vm_compute; reflexivity.
Qed.

End DemonstrationStream.

(** ** Two calls at the same time *)

Section TwoCallsProofs.

Context `{Outside}.

Variable calls : side → Call.
Variable w0 : World.

Hypothesis slices_ok :
  ∀ x, slice_ok (strs w0) (c_fetchList (calls x))
       ∧ slice_ok (strs w0) (c_options (calls x)).

Local Abbreviation INV x base :=
  (Inv (c_restorer (calls x)) (c_fetchList (calls x))
       (c_destinationPath (calls x)) (c_options (calls x)) base).
Local Abbreviation names x := (batch (c_fetchList (calls x)) w0).
Local Abbreviation left x := (left_to_run (c_fetchList (calls x))).

Lemma other_other (x : side) : other (other x) = x.
Proof. by destruct x. Qed.

(** The invariant of a call does not care which world it is counted
    from, as long as the arrays of the caller are those and the
    subprocesses add up. *)
Lemma Inv_rebase (restorer : WALRestorer) (fetchList : slice)
    (destinationPath : string) (options : slice)
    (h : arrays) (ps ps' : list Proc) (e e' : Ext) (s : State) (w' : World) :
  Inv restorer fetchList destinationPath options (mkWorld h ps e) s →
  h ⊆ strs w' →
  procs w' ≡ₚ ps' ++ fetches s →
  Inv restorer fetchList destinationPath options (mkWorld h ps' e') (in_world w' s).
Proof.
  intros [Hstrs Hmain Hres Hslot Hrest Hwg Hprocs Hlog] Hsub Hperm.
  split; simpl; try done.
Qed.

Lemma initial2_inv : Inv2 calls w0 (initial2 w0).
Proof.
  split; [done|]. intros x.
  assert (INV x w0 (initial w0)) as HI by apply initial_inv.
  destruct w0 as [h ps e].
  assert (initial (mkWorld h ps e) = in_world (mkWorld h ps e) (initial (mkWorld h ps e)))
    as Heq by done.
  destruct x; simpl; unfold base_world; rewrite Heq;
    (eapply Inv_rebase; [exact HI|done|]); simpl; unfold fetches; simpl;
    by rewrite !app_nil_r.
Qed.

(** One statement of either call: no panic, both invariants kept, one
    statement less to run. *)
Lemma step2_ok (p : Two) (x : side) (t : tid) :
  Inv2 calls w0 p →
  match step2 calls x t p with
  | Next2 p' => Inv2 calls w0 p' ∧ left_to_run2 calls p' + 1 = left_to_run2 calls p
  | Blocked2 => True
  | Panic2 => False
  end.
Proof.
  intros [Hw HI].
  pose proof (HI x) as Hx. pose proof (HI (other x)) as Ho.
  rewrite other_other in Ho.
  destruct (slices_ok x) as [Hf Hopt].
  pose proof (thread_step_ok _ _ _ _ (base_world w0 (call (other x) p))
                Hf Hopt (call x p) t Hx) as Hok.
  unfold step2, call_step.
  destruct (thread_step _ _ _ _ t (call x p)) as [s'| |]; [|done..].
  destruct Hok as [HI' Hleft].
  assert (Inv (c_restorer (calls (other x))) (c_fetchList (calls (other x)))
              (c_destinationPath (calls (other x))) (c_options (calls (other x)))
              (base_world w0 s') (in_world (world s') (call (other x) p)))
    as Hother.
  { eapply Inv_rebase; [exact Ho| |].
    - apply (inv_strs _ _ _ _ _ _ HI').
    - rewrite (inv_procs _ _ _ _ _ _ HI'). simpl. unfold fetches.
      rewrite <- !(assoc_L (++)). f_equiv. apply Permutation_app_comm. }
  destruct x; simpl in *.
  - split; [|unfold left_to_run2, left_to_run in *; simpl; lia].
    split; [done|]. intros [|]; simpl; done.
  - split; [|unfold left_to_run2, left_to_run in *; simpl; lia].
    split; [done|]. intros [|]; simpl; done.
Qed.

Lemma reachable2_inv (p : Two) : reachable2 calls w0 p → Inv2 calls w0 p.
Proof.
  induction 1 as [|p x t p' _ IH Hstep]; [apply initial2_inv|].
  pose proof (step2_ok p x t IH) as Hok. rewrite Hstep in Hok. tauto.
Qed.

(** From wherever they are, both calls can be run to their return. *)
Lemma run2_to_return (p : Two) :
  Inv2 calls w0 p →
  ∃ sched p', run2 calls sched p = Some p' ∧ ∀ x, main (call x p') = MDone.
Proof.
  remember (left_to_run2 calls p) as m eqn:Hm. revert p Hm.
  induction m as [m IH] using lt_wf_ind. intros p -> HI.
  assert (∀ x, main (call x p) ≠ MDone →
            ∃ sched p', run2 calls sched p = Some p'
                        ∧ ∀ y, main (call y p') = MDone) as Hgo.
  { intros x Hx. destruct (slices_ok x) as [Hf Hopt].
    destruct (can_move _ _ _ _ (base_world w0 (call (other x) p))
                Hf Hopt (call x p) (proj2 HI x) Hx)
      as (t & s1 & Hstep).
    pose proof (step2_ok p x t HI) as Hok.
    assert (∃ p1, step2 calls x t p = Next2 p1) as [p1 Hstep2].
    { unfold step2, call_step. rewrite Hstep. eauto. }
    rewrite Hstep2 in Hok. destruct Hok as [HI1 Hleft].
    destruct (IH (left_to_run2 calls p1) ltac:(lia) p1 eq_refl HI1)
      as (sched & p' & Hrun & Hdone).
    exists ((x, t) :: sched), p'. simpl. by rewrite Hstep2. }
  destruct (decide (main (state1 p) = MDone)) as [H1|H1]; [|by apply (Hgo First)].
  destruct (decide (main (state2 p) = MDone)) as [H2|H2]; [|by apply (Hgo Second)].
  exists [], p. split; [done|]. by intros [|].
Qed.

(** The file the fetch for an index is told to write. *)
Lemma destination_fetch (restorer : WALRestorer) (opts : list string)
    (walName destinationPath : string) (st : ProcessState) :
  destination (mkProc (fetch_cmd restorer opts walName destinationPath) st)
  = Some destinationPath.
Proof.
  unfold destination, fetch_cmd. simpl.
  replace (BarmanCloudWalRestore :: opts ++ [walName; destinationPath])
    with ((BarmanCloudWalRestore :: opts ++ [walName]) ++ [destinationPath])
    by (simpl; by rewrite <- (assoc_L (++))).
  apply last_snoc.
Qed.

(** What a goroutine of call [x] has fetched went to the destination of
    its index. *)
Lemma fetched_destination (p : Two) (x : side) (g : Goroutine) (q : Proc) :
  Inv2 calls w0 p →
  g ∈ goroutines (call x p) → ran g = Some q →
  walIndex g < len (c_fetchList (calls x))
  ∧ names x !! walIndex g = Some (name_at (c_fetchList (calls x)) w0 (walIndex g))
  ∧ destination q =
      Some (dest_at (c_restorer (calls x)) (c_fetchList (calls x))
                    (c_destinationPath (calls x)) w0 (walIndex g)).
Proof.
  intros [_ HI] [k Hg]%list_elem_of_lookup Hq.
  destruct (slices_ok x) as [Hf _].
  destruct (inv_slot _ _ _ _ _ _ (HI x) k g Hg) as (rs & r & _ & _ & Hslot).
  destruct Hslot as (Hk & _ & _ & _ & Hran & _).
  assert (walIndex g < len (c_fetchList (calls x))) as Hlt.
  { destruct (inv_main _ _ _ _ _ _ (HI x)) as [Hlen _].
    apply lookup_lt_Some in Hg. lia. }
  split; [done|]. split.
  - unfold name_at.
    destruct (lookup_lt_is_Some_2 (names x) (walIndex g)) as [n Hn].
    { unfold batch. rewrite length_elems by done. done. }
    by rewrite Hn.
  - destruct (4 <=? rank (at_pc g)).
    + destruct Hran as (q' & Hq' & Hcmd & _). simplify_eq.
      destruct q as [c st]. simpl in Hcmd. rewrite Hcmd.
      unfold cmd_at. by rewrite destination_fetch.
    + destruct Hran as [Hnone _]. congruence.
Qed.

(** What a statement of call [x] does to the pair. *)
Lemma step2_Next (p p' : Two) (x : side) (t : tid) :
  step2 calls x t p = Next2 p' →
  ∃ s', call_step (calls x) t (call x p) = Next s'
        ∧ call x p' = s'
        ∧ call (other x) p' = in_world (world s') (call (other x) p).
Proof.
  unfold step2. intros Hstep.
  destruct (call_step (calls x) t (call x p)) as [s'| |]; [|done..].
  exists s'. destruct x; by simplify_eq/=.
Qed.

End TwoCallsProofs.

Section TwoCallsApart.

Context `{Outside}.

Variable calls : side → Call.
Variable w0 : World.

Local Abbreviation names x := (batch (c_fetchList (calls x)) w0).
Local Abbreviation spool_of x := (spool (c_restorer (calls x))).


End TwoCallsApart.

(** ** Two calls in the small world *)

Section DemonstrationTwo.

Local Existing Instance Demo.outside.

Import Demo DemoTwo.

(** The spool of the small world gives different names different files. *)
Lemma FileName_inj (dir n m : string) : FileName dir n = FileName dir m → n = m.
Proof.
  unfold FileName. intros Heq.
  apply (inj (String.app dir)) in Heq. by apply (inj (String.app "/")) in Heq.
Qed.

(** No path under /pg or /pg2 is a file of the spool. *)
Lemma dest_not_in_spool (x : side) (n : string) :
  c_destinationPath (calls x) ≠ FileName "/spool" n.
Proof. destruct x; unfold FileName; simpl; discriminate. Qed.

Lemma batches_disjoint (n : string) :
  n ∈ batch batch1 w0 → n ∉ batch batch2 w0.
Proof.
  change (n ∈ [A] → n ∉ [B; C]).
  intros ->%list_elem_of_singleton [Hn|[Hn|Hn]%elem_of_cons]%elem_of_cons.
  - discriminate Hn.
  - discriminate Hn.
  - by apply elem_of_nil in Hn.
Qed.

(** The two calls interleaved: each has its own results, and the spool
    holds C as C. *)
Example RestoreList_two_calls_overlapping :
  match run2 calls overlapping (initial2 w0) with
  | Some p =>
      Some (option_map (map (λ r, (WalName r, DestinationPath r)))
              (resultList (state1 p)),
            option_map (map (λ r, (WalName r, DestinationPath r)))
              (resultList (state2 p)),
            disk (ext (world (state2 p))) !! FileName "/spool" C)
  | None => None
  end
  = Some (Some [(A, dest)], Some [(B, dest2); (C, FileName "/spool" C)], Some C).
Proof. vm_compute. reflexivity. Qed.



End DemonstrationTwo.
